(** * slam: the repository model and its ordered project list

    A shallow embedding of [src/slam/repository.py] (class [Repository]) and
    of the plugin interfaces of [src/slam/plugins.py] it consumes, together
    with the properties of handler resolution, of the lazily computed fields
    and of the topologically ordered project list. *)

From Stdlib Require Import List String Ascii Bool Arith NArith ZArith Lia Relations Permutation Sorted DecimalString.
Import ListNotations.

Local Open Scope string_scope.
Local Open Scope list_scope.

Set Implicit Arguments.

(** ** Keys: Python [str] comparison

    [sorted(..., key=lambda p: p.id)] compares ids with Python's [str]
    ordering, the lexicographic order of code points.  Ids are held as the
    UTF-8 bytes of the text, on which the byte-wise lexicographic order of
    [String.compare] is the order of code points. *)

Definition str_le (a b : string) : Prop := String.leb a b = true.

(** ** Directed graph and topological sort ([nr.util.digraph])

    [Repository._get_projects] builds a [DiGraph] and hands it to
    [topological_sort]; both come from the package [nr.util], whose source
    is not part of the repository sources. *)

Section Graph.

Variable K : Type.
Variable K_eq_dec : forall a b : K, {a = b} + {a <> b}.

Definition mem (k : K) (l : list K) : bool :=
  if in_dec K_eq_dec k l then true else false.

(** Modelled from the spec: the class [DiGraph] of [nr.util.digraph] is
    missing from the sources.  The spec (4.4) gives it add-node and
    add-edge operations, nodes de-duplicated by identity, and no payload
    beyond identity; the nodes are kept in insertion order. *)
Record DiGraph : Type := { nodes : list K; edges : list (K * K) }.

Definition empty_graph : DiGraph := {| nodes := []; edges := [] |}.

Definition add_node (g : DiGraph) (k : K) : DiGraph :=
  if mem k (nodes g) then g
  else {| nodes := nodes g ++ [k]; edges := edges g |}.

(** Modelled from the spec: adding an edge implicitly ensures that both
    endpoints exist as nodes (4.4). *)
Definition add_edge (g : DiGraph) (a b : K) : DiGraph :=
  let g' := add_node (add_node g a) b in
  {| nodes := nodes g'; edges := edges g' ++ [(a, b)] |}.

Definition predecessors (g : DiGraph) (k : K) : list K :=
  map fst (filter (fun e => if K_eq_dec (snd e) k then true else false) (edges g)).

Variable sorting_key : K -> string.

Inductive sort_result : Type :=
| Sorted (order : list K)
| Unsorted (unreached : list K).

(** A node is eligible once every one of its incoming edges is resolved,
    that is, once all its predecessors have been emitted. *)
Definition eligible (g : DiGraph) (emitted : list K) (k : K) : bool :=
  forallb (fun a => mem a emitted) (predecessors g k).

(** The first node of [x :: l] whose key is smallest. *)
Fixpoint smallest (x : K) (l : list K) : K :=
  match l with
  | [] => x
  | y :: l' =>
      smallest (if String.ltb (sorting_key y) (sorting_key x) then y else x) l'
  end.

Definition finish (pending emitted : list K) : sort_result :=
  match pending with
  | [] => Sorted (rev emitted)
  | _ :: _ => Unsorted pending
  end.

(** Modelled from the spec: the function [topological_sort] of
    [nr.util.digraph.algorithm.topological_sort] is missing from the
    sources.  The spec (4.4, 9) describes the readiness-queue algorithm
    with a min-priority structure on the node key: among the nodes with no
    unresolved incoming edge the one with the smallest key is emitted
    next; when nodes are left over and none is eligible the sort fails
    with a circular-dependency error that reports the unreached nodes.
    [emitted] holds the emitted nodes, most recent first; the loop runs at
    most once per node. *)
Fixpoint sort_loop (g : DiGraph) (n : nat) (pending emitted : list K) : sort_result :=
  match n with
  | 0 => finish pending emitted
  | S n' =>
      match filter (eligible g emitted) pending with
      | [] => finish pending emitted
      | x :: l =>
          let m := smallest x l in
          sort_loop g n' (remove K_eq_dec m pending) (m :: emitted)
      end
  end.

Definition topological_sort (g : DiGraph) : sort_result :=
  sort_loop g (List.length (nodes g)) (nodes g) [].

End Graph.

Arguments Sorted {K} order.
Arguments Unsorted {K} unreached.
Arguments empty_graph {K}.

(** ** Data model *)

Definition Path := string.

(** Values of the raw configuration.  The document is read from
    [pyproject.toml] or [slam.toml] (see the docstring of
    [ApplicationPlugin.load_configuration]), so a value is a TOML value;
    a table is kept as an association list. *)
#[local] Unset Elimination Schemes.
Inductive Toml : Type :=
| TString (s : string)
| TInteger (z : Z)
| TFloat (repr : string)
| TBoolean (b : bool)
| TDatetime (repr : string)
| TArray (items : list Toml)
| TTable (items : list (string * Toml)).
#[local] Set Elimination Schemes.

Definition Table := list (string * Toml).

(** [dict.get(key)]: [None] when the key is missing. *)
Fixpoint dict_get (key : string) (d : Table) : option Toml :=
  match d with
  | [] => None
  | (k, v) :: d' => if String.eqb k key then Some v else dict_get key d'
  end.

(** [Configuration]: the directory and the memoized raw configuration. *)
Record Configuration : Type := {
  directory : Path;
  raw_config : Table
}.

(** A project.  [Project] defines neither [__eq__] nor [__hash__]: [obj]
    stands for the identity of the Python object, by which the graph
    de-duplicates its nodes. *)
Record Project : Type := {
  obj : nat;
  id : string;
  project_directory : Path
}.

Definition Project_eq_dec (p q : Project) : {p = q} + {p <> q}.
Proof.
  decide equality; try apply string_dec. apply Nat.eq_dec.
Defined.

Record Vcs : Type := { vcs_name : string }.
Record VcsHost : Type := { remote_name : string }.
Record RepositoryHost : Type := { host_name : string }.

(** [ProjectHandlerPlugin] ([plugins.py]): the queries of a project are
    delegated to its handler, which receives the project.  [get_dependencies]
    gives the distribution names of the declared dependencies. *)
Record ProjectHandlerPlugin : Type := {
  matches_project : Project -> bool;
  get_dist_name : Project -> option string;
  get_readme : Project -> option string;
  get_dependencies : Project -> list string
}.

(** A handler object.  [RepositoryHandlerPlugin] ([plugins.py]) declares
    the four abstract methods [matches_repository], [get_vcs],
    [get_vcs_remote] and [get_projects]; each receives the repository.
    [Repository._get_repository_host] looks up [get_repository_host] on the
    handler, an attribute that the interface does not declare: it is
    [Some] method for a handler class that defines it and [None] for one
    that has just the declared methods. *)
Record RepositoryHandlerPlugin : Type := {
  matches_repository : Configuration -> bool;
  get_vcs : Configuration -> option Vcs;
  get_vcs_remote : Configuration -> option VcsHost;
  get_projects : Configuration -> list Project;
  get_repository_host : option (Configuration -> option RepositoryHost)
}.

(** The collaborators of a repository: the default handler, the entry
    point registry ([None]: no such entry point) and the project handler. *)
Record Plugins : Type := {
  DefaultRepositoryHandler : RepositoryHandlerPlugin;
  load_entrypoint : string -> option RepositoryHandlerPlugin;
  project_handler : ProjectHandlerPlugin
}.

(** The two [assert] statements of [_get_repository_handler], told apart
    by the message each gives to its [AssertionError]. *)
Inductive assertion : Type :=
| IsInstanceStr (handler_name : Toml)
| MatchesRepository (dir : Path).

Inductive exn : Type :=
| NotASlamRepository (dir : Path)
| AssertionError (message : assertion)
| AttributeError
| IndexError
| NoSuchEntrypointError (name : string)
| CircularDependency (unreached : list Project).

Inductive result (A : Type) : Type :=
| Ok (a : A)
| Raise (e : exn).

Arguments Ok {A} a.
Arguments Raise {A} e.

(** ** Projects and their interdependencies *)

(** Modelled from the spec: [Project.get_interdependencies] lives in
    [slam/project.py], which is missing from the sources.  Per the spec
    (4.2) it returns the candidates that the project declares a dependency
    on, matched by distribution name, and never the project itself. *)
Definition get_interdependencies (ph : ProjectHandlerPlugin)
    (self : Project) (candidates : list Project) : list Project :=
  filter (fun q =>
            negb (if Project_eq_dec q self then true else false) &&
            match get_dist_name ph q with
            | Some n => existsb (String.eqb n) (get_dependencies ph self)
            | None => false
            end) candidates.

(** [sorted(projects, key=lambda p: p.id)]: a stable sort. *)
Fixpoint insert_by_id (x : Project) (l : list Project) : list Project :=
  match l with
  | [] => [x]
  | y :: l' => if String.ltb (id y) (id x) then y :: insert_by_id x l' else x :: l
  end.

Definition sorted_by_id (l : list Project) : list Project :=
  fold_right insert_by_id [] l.

(** The body of the outer [for] loop of [_get_projects]. *)
Definition add_project (ph : ProjectHandlerPlugin) (projects : list Project)
    (graph : DiGraph Project) (project : Project) : DiGraph Project :=
  fold_left
    (fun g dep => add_edge Project_eq_dec (add_node Project_eq_dec g dep) dep project)
    (get_interdependencies ph project projects)
    (add_node Project_eq_dec graph project).

Definition build_graph (ph : ProjectHandlerPlugin) (projects : list Project)
    : DiGraph Project :=
  fold_left (add_project ph projects) projects empty_graph.

(** The part of [_get_projects] after the handler has been obtained. *)
Definition order_projects (ph : ProjectHandlerPlugin) (raw : list Project)
    : result (list Project) :=
  let projects := sorted_by_id raw in
  match topological_sort Project_eq_dec id (build_graph ph projects) with
  | Sorted order => Ok order
  | Unsorted unreached => Raise (CircularDependency unreached)
  end.

(** ** Lazy fields ([nr.util.functional.Once]) *)

(** Modelled from the spec: the class [Once] of [nr.util.functional] is
    missing from the sources.  The spec (9) describes a compute-once cell
    with an empty, a resolved and a failed state and a factory function.  A
    value, once computed, is memoized; whether a failure is memoized too is
    left open by the spec (7, 9), so that policy is the parameter
    [caches_failure] of the model. *)
Inductive Once (A : Type) : Type :=
| Pending
| Cached (value : A)
| Failed (e : exn).

Arguments Pending {A}.
Arguments Cached {A} value.
Arguments Failed {A} e.

(** The four lazy fields of a [Repository]. *)
Inductive lazy_field : Type := FHandler | FProjects | FVcs | FHost.

Definition lazy_field_eq_dec (a b : lazy_field) : {a = b} + {a <> b}.
Proof. decide equality. Defined.

(** A [Repository] instance: its [Configuration] base and the four cells
    set up by [__init__].  [journal] is instrumentation: one entry per run
    of a supplier, with whether the run returned a value. *)
Record Repository : Type := {
  config : Configuration;
  _handler : Once RepositoryHandlerPlugin;
  projects : Once (list Project);
  vcs : Once (option Vcs);
  host : Once (option RepositoryHost);
  journal : list (lazy_field * bool)
}.

(** [Repository.__init__] *)
Definition Repository_init (c : Configuration) : Repository :=
  {| config := c; _handler := Pending; projects := Pending;
     vcs := Pending; host := Pending; journal := [] |}.

Definition set_handler (v : Once RepositoryHandlerPlugin) (r : Repository) :=
  {| config := config r; _handler := v; projects := projects r;
     vcs := vcs r; host := host r; journal := journal r |}.

Definition set_projects (v : Once (list Project)) (r : Repository) :=
  {| config := config r; _handler := _handler r; projects := v;
     vcs := vcs r; host := host r; journal := journal r |}.

Definition set_vcs (v : Once (option Vcs)) (r : Repository) :=
  {| config := config r; _handler := _handler r; projects := projects r;
     vcs := v; host := host r; journal := journal r |}.

Definition set_host (v : Once (option RepositoryHost)) (r : Repository) :=
  {| config := config r; _handler := _handler r; projects := projects r;
     vcs := vcs r; host := v; journal := journal r |}.

Definition record_run (f : lazy_field) (ok : bool) (r : Repository) :=
  {| config := config r; _handler := _handler r; projects := projects r;
     vcs := vcs r; host := host r; journal := journal r ++ [(f, ok)] |}.

(** Methods run in a state and exception monad over the instance. *)
Definition M (A : Type) : Type := Repository -> result A * Repository.

Definition ret {A} (a : A) : M A := fun r => (Ok a, r).
Definition raise {A} (e : exn) : M A := fun r => (Raise e, r).
Definition bind {A B} (m : M A) (k : A -> M B) : M B :=
  fun r => match m r with
           | (Ok a, r') => k a r'
           | (Raise e, r') => (Raise e, r')
           end.
Definition self_config : M Configuration := fun r => (Ok (config r), r).
Definition lift {A} (x : result A) : M A := fun r => (x, r).

Notation "x <- m ;; k" := (bind m (fun x => k))
  (at level 61, m at next level, right associativity).

Definition is_ok {A} (x : result A) : bool :=
  match x with Ok _ => true | Raise _ => false end.

Section Methods.

Variable caches_failure : bool.
Variable plugins : Plugins.

(** [Once.__call__] (and [Once.get]) on the cell read by [get] and written
    by [set], with the supplier given to the constructor. *)
Definition once_call {A} (f : lazy_field) (get : Repository -> Once A)
    (set : Once A -> Repository -> Repository) (supplier : M A) : M A :=
  fun r =>
    match get r with
    | Cached a => (Ok a, r)
    | Failed e => (Raise e, r)
    | Pending =>
        let (res, r') := supplier r in
        let r'' := record_run f (is_ok res) r' in
        match res with
        | Ok a => (Ok a, set (Cached a) r'')
        | Raise e => (Raise e, if caches_failure then set (Failed e) r'' else r'')
        end
    end.

(** [self.raw_config().get('repository', {}).get('handler')]; a value
    under ['repository'] that is not a table has no [get]. *)
Definition handler_name (c : Configuration) : result (option Toml) :=
  match dict_get "repository" (raw_config c) with
  | None => Ok None
  | Some (TTable t) => Ok (dict_get "handler" t)
  | Some _ => Raise AttributeError
  end.

(** [Repository._get_repository_handler] *)
Definition _get_repository_handler : M RepositoryHandlerPlugin :=
  c <- self_config ;;
  name <- lift (handler_name c) ;;
  match name with
  | None =>
      let handler := DefaultRepositoryHandler plugins in
      if negb (matches_repository handler c)
      then raise (NotASlamRepository (directory c))
      else ret handler
  | Some (TString s) =>
      match load_entrypoint plugins s with
      | None => raise (NoSuchEntrypointError s)
      | Some handler =>
          if matches_repository handler c then ret handler
          else raise (AssertionError (MatchesRepository (directory c)))
      end
  | Some v => raise (AssertionError (IsInstanceStr v))
  end.

(** [self._handler()] *)
Definition call_handler : M RepositoryHandlerPlugin :=
  once_call FHandler _handler set_handler _get_repository_handler.

(** [Repository._get_projects] *)
Definition _get_projects : M (list Project) :=
  handler <- call_handler ;;
  c <- self_config ;;
  lift (order_projects (project_handler plugins) (get_projects handler c)).

(** [Repository._get_vcs] *)
Definition _get_vcs : M (option Vcs) :=
  handler <- call_handler ;;
  c <- self_config ;;
  ret (get_vcs handler c).

(** [Repository._get_repository_host]; the attribute lookup on the handler
    raises [AttributeError] when the handler has no such method. *)
Definition _get_repository_host : M (option RepositoryHost) :=
  handler <- call_handler ;;
  match get_repository_host handler with
  | None => raise AttributeError
  | Some method =>
      c <- self_config ;;
      ret (method c)
  end.

(** [self.projects()], [self.vcs()], [self.host()] *)
Definition call_projects : M (list Project) :=
  once_call FProjects projects set_projects _get_projects.

Definition call_vcs : M (option Vcs) :=
  once_call FVcs vcs set_vcs _get_vcs.

Definition call_host : M (option RepositoryHost) :=
  once_call FHost host set_host _get_repository_host.

(** [Repository.load] *)
Definition load : M unit :=
  _ <- call_handler ;; ret tt.

(** [Repository.is_monorepo] *)
Definition is_monorepo : M bool :=
  ps <- call_projects ;;
  if Nat.ltb 1 (List.length ps) then ret true
  else
    ps1 <- call_projects ;;
    if Nat.eqb (List.length ps1) 1 then
      ps2 <- call_projects ;;
      match ps2 with
      | [] => raise IndexError
      | p :: _ =>
          c <- self_config ;;
          if negb (String.eqb (project_directory p) (directory c))
          then ret true else ret false
      end
    else ret false.

(** What a caller can do with an instance; [observation] is what it sees. *)
Inductive access : Type := Load | GetProjects | GetVcs | GetHost.

Inductive observation : Type :=
| Done
| SawProjects (ps : list Project)
| SawVcs (v : option Vcs)
| SawHost (h : option RepositoryHost).

Definition perform (a : access) : M observation :=
  match a with
  | Load => _ <- load ;; ret Done
  | GetProjects => ps <- call_projects ;; ret (SawProjects ps)
  | GetVcs => v <- call_vcs ;; ret (SawVcs v)
  | GetHost => h <- call_host ;; ret (SawHost h)
  end.

(** A sequence of accesses on one instance; an exception is seen by the
    caller and the next access goes ahead on the same instance. *)
Fixpoint perform_all (l : list access) (r : Repository)
    : list (result observation) * Repository :=
  match l with
  | [] => ([], r)
  | a :: l' =>
      let (x, r') := perform a r in
      let (xs, r'') := perform_all l' r' in
      (x :: xs, r'')
  end.

End Methods.

(** ** Vocabulary of the properties *)

(** [edge g a b]: the graph has the edge [a -> b]. *)
Definition edge {K} (g : DiGraph K) (a b : K) : Prop := In (a, b) (edges g).

(** [precedes l a b]: [a] occurs in [l] strictly before an occurrence of [b]. *)
Definition precedes {K} (l : list K) (a b : K) : Prop :=
  exists l1 l2 l3, l = l1 ++ a :: l2 ++ b :: l3.

Definition acyclic {K} (R : K -> K -> Prop) : Prop :=
  forall x, ~ clos_trans K R x x.

(** Every edge joins two nodes, and no node is listed twice. *)
Definition well_formed {K} (g : DiGraph K) : Prop :=
  NoDup (nodes g) /\
  forall a b, edge g a b -> In a (nodes g) /\ In b (nodes g).

(** In [e] (most recent first) every node comes after all its predecessors. *)
Fixpoint respects {K} (g : DiGraph K) (e : list K) : Prop :=
  match e with
  | [] => True
  | b :: e' => (forall a, edge g a b -> In a e') /\ respects g e'
  end.

(** The tie-break law on an output [pre ++ rest]: each node of [rest] has,
    at the moment it is emitted, the smallest key among the nodes that are
    not yet emitted and whose predecessors all are. *)
Fixpoint smallest_first {K} (g : DiGraph K) (key : K -> string)
    (pre rest : list K) : Prop :=
  match rest with
  | [] => True
  | x :: rest' =>
      (forall y, In y (nodes g) -> ~ In y pre ->
                 (forall a, edge g a y -> In a pre) ->
                 str_le (key x) (key y)) /\
      smallest_first g key (pre ++ [x]) rest'
  end.

(** [interdependency ph candidates q p]: [q] is among the
    interdependencies of the candidate [p], the edge [q -> p]. *)
Definition interdependency (ph : ProjectHandlerPlugin) (candidates : list Project)
    (q p : Project) : Prop :=
  In p candidates /\ In q (get_interdependencies ph p candidates).

(** The outcome of handler resolution for a repository with the
    configuration [c]: what [_get_repository_handler] returns or raises. *)
Definition resolution (plugins : Plugins) (c : Configuration)
    : result RepositoryHandlerPlugin :=
  fst (_get_repository_handler plugins (Repository_init c)).

(** What [_get_projects] returns or raises on a fresh instance. *)
Definition ordering (plugins : Plugins) (c : Configuration)
    : result (list Project) :=
  match resolution plugins c with
  | Ok handler => order_projects (project_handler plugins) (get_projects handler c)
  | Raise e => Raise e
  end.

(** What [_get_vcs] and [_get_repository_host] return or raise on a fresh
    instance. *)
Definition expected_vcs (plugins : Plugins) (c : Configuration)
    : result (option Vcs) :=
  match resolution plugins c with
  | Ok handler => Ok (get_vcs handler c)
  | Raise e => Raise e
  end.

Definition expected_host (plugins : Plugins) (c : Configuration)
    : result (option RepositoryHost) :=
  match resolution plugins c with
  | Ok handler =>
      match get_repository_host handler with
      | None => Raise AttributeError
      | Some method => Ok (method c)
      end
  | Raise e => Raise e
  end.

(** What an access observes on a fresh instance. *)
Definition expected (plugins : Plugins) (c : Configuration) (a : access)
    : result observation :=
  match a with
  | Load =>
      match resolution plugins c with Ok _ => Ok Done | Raise e => Raise e end
  | GetProjects =>
      match ordering plugins c with Ok ps => Ok (SawProjects ps) | Raise e => Raise e end
  | GetVcs =>
      match expected_vcs plugins c with Ok v => Ok (SawVcs v) | Raise e => Raise e end
  | GetHost =>
      match expected_host plugins c with Ok h => Ok (SawHost h) | Raise e => Raise e end
  end.

(** Reading the journal: how often the supplier of a field ran, and how
    often it returned a value. *)
Definition is_field (f : lazy_field) (ev : lazy_field * bool) : bool :=
  if lazy_field_eq_dec (fst ev) f then true else false.

Definition runs (f : lazy_field) (r : Repository) : nat :=
  List.length (filter (is_field f) (journal r)).

Definition computed (f : lazy_field) (r : Repository) : nat :=
  List.length (filter (fun ev => is_field f ev && snd ev) (journal r)).

(** A cell agrees with the outcome [x] of its supplier and with the
    journal of its field. *)
Definition cell_agrees {A} (x : result A) (cell : Once A) (n_runs n_ok : nat) : Prop :=
  match cell with
  | Pending => n_ok = 0 /\ (is_ok x = true -> n_runs = 0)
  | Cached a => x = Ok a /\ n_ok = 1 /\ n_runs = 1
  | Failed e => x = Raise e /\ n_ok = 0
  end.

(** The states of an instance created for the configuration [c]. *)
Definition consistent (plugins : Plugins) (c : Configuration) (r : Repository) : Prop :=
  config r = c /\
  cell_agrees (resolution plugins c) (_handler r) (runs FHandler r) (computed FHandler r) /\
  cell_agrees (ordering plugins c) (projects r) (runs FProjects r) (computed FProjects r) /\
  cell_agrees (expected_vcs plugins c) (vcs r) (runs FVcs r) (computed FVcs r) /\
  cell_agrees (expected_host plugins c) (host r) (runs FHost r) (computed FHost r).

(** The handler is bound once resolution has succeeded. *)
Definition handler_bound (plugins : Plugins) (c : Configuration) (r : Repository) : Prop :=
  forall h, resolution plugins c = Ok h -> exists h', _handler r = Cached h'.



(** [eligible_after ph raw pre y]: once the projects [pre] are emitted, the
    candidate [y] is eligible: it is not yet emitted and all of its
    interdependencies are. *)
Definition eligible_after (ph : ProjectHandlerPlugin) (raw pre : list Project)
    (y : Project) : Prop :=
  In y raw /\ ~ In y pre /\
  forall q, interdependency ph raw q y -> In q pre.

(** The tie-break law on the order returned for the candidates [raw]:
    wherever the order is cut, the project emitted next is eligible, and
    its id is the smallest among the ids of the eligible projects. *)
Definition tie_break_law (ph : ProjectHandlerPlugin) (raw order : list Project) : Prop :=
  forall pre x post, order = pre ++ x :: post ->
    eligible_after ph raw pre x /\
    forall y, eligible_after ph raw pre y -> str_le (id x) (id y).

(** The project handler [ph], except that the project [p0] declares one
    more dependency, on the distribution name [d]. *)
Definition declare_dependency (ph : ProjectHandlerPlugin) (p0 : Project) (d : string)
    : ProjectHandlerPlugin :=
  {| matches_project := matches_project ph;
     get_dist_name := get_dist_name ph;
     get_readme := get_readme ph;
     get_dependencies := fun p =>
       if Project_eq_dec p p0 then d :: get_dependencies ph p
       else get_dependencies ph p |}.

Definition with_project_handler (plugins : Plugins) (ph : ProjectHandlerPlugin)
    : Plugins :=
  {| DefaultRepositoryHandler := DefaultRepositoryHandler plugins;
     load_entrypoint := load_entrypoint plugins;
     project_handler := ph |}.

(** ** Sample repositories *)

Module Sample.

Definition project (n : nat) (name : string) : Project :=
  {| obj := n; id := name; project_directory := String.append "/repo/" name |}.

Definition a : Project := project 1 "a".
Definition b : Project := project 2 "b".
Definition c : Project := project 3 "c".
Definition x : Project := project 4 "x".
Definition y : Project := project 5 "y".

(** A project handler that names each distribution after the project id
    and reads the dependencies off [deps]. *)
Definition by_id (deps : string -> list string) : ProjectHandlerPlugin :=
  {| matches_project := fun _ => true;
     get_dist_name := fun p => Some (id p);
     get_readme := fun _ => None;
     get_dependencies := fun p => deps (id p) |}.

(** A repository handler with a fixed answer to each query; it defines
    [get_repository_host] besides the declared methods. *)
Definition fixed (matches : bool) (ps : list Project) : RepositoryHandlerPlugin :=
  {| matches_repository := fun _ => matches;
     get_vcs := fun _ => Some {| vcs_name := "git" |};
     get_vcs_remote := fun _ => None;
     get_projects := fun _ => ps;
     get_repository_host := Some (fun _ => None) |}.

(** A repository handler that has the declared methods and no other. *)
Definition declared_only (ps : list Project) : RepositoryHandlerPlugin :=
  {| matches_repository := fun _ => true;
     get_vcs := fun _ => Some {| vcs_name := "git" |};
     get_vcs_remote := fun _ => None;
     get_projects := fun _ => ps;
     get_repository_host := None |}.

(** [b] and [a] without dependencies, [c] depending on [a]. *)
Definition tie_break : Plugins :=
  {| DefaultRepositoryHandler := fixed true [b; a; c];
     load_entrypoint := fun _ => None;
     project_handler := by_id (fun n => if String.eqb n "c" then ["a"] else []) |}.

(** [a] depending on [b]. *)
Definition a_needs_b : ProjectHandlerPlugin :=
  by_id (fun n => if String.eqb n "a" then ["b"] else []).

(** [x] depending on [y] and [y] on [x]. *)
Definition cyclic : Plugins :=
  {| DefaultRepositoryHandler := fixed true [x; y];
     load_entrypoint := fun _ => None;
     project_handler :=
       by_id (fun n => if String.eqb n "x" then ["y"]
                       else if String.eqb n "y" then ["x"] else []) |}.

(** The default handler does not match; the entry point ["custom"] is a
    handler that does not match either. *)
Definition unmatched : Plugins :=
  {| DefaultRepositoryHandler := fixed false [];
     load_entrypoint := fun n =>
       if String.eqb n "custom" then Some (fixed false []) else None;
     project_handler := by_id (fun _ => []) |}.

(** The default handler matches and has the declared methods only. *)
Definition bare : Plugins :=
  {| DefaultRepositoryHandler := declared_only [a];
     load_entrypoint := fun _ => None;
     project_handler := by_id (fun _ => []) |}.

Definition plain : Configuration :=
  {| directory := "/repo"; raw_config := [] |}.

Definition configured (v : Toml) : Configuration :=
  {| directory := "/repo";
     raw_config := [("repository", TTable [("handler", v)])] |}.

End Sample.

(** A walk of [R]: consecutive elements are related. *)
Fixpoint walk {K} (R : K -> K -> Prop) (l : list K) : Prop :=
  match l with
  | [] => True
  | x :: l' => match l' with [] => True | y :: _ => R x y end /\ walk R l'
  end.

(** ** The setup-file renderer ([shut/renderers/setuptools.py])

    A Python [str] is held as a Rocq string, one [ascii] per character.
    The package model, the requirements and the functions of [os.path] and
    [nr.fs] are not part of the sources; the renderer receives what it
    reads from them. *)

Module Setuptools.

Definition nl : string := String (ascii_of_nat 10) EmptyString.
Definition dq : string := String (ascii_of_nat 34) EmptyString.

Definition lines (l : list string) : string :=
  String.concat "" (map (fun x => (x ++ nl)%string) l).

(** [s.find(sub, start)]: the lowest index at or after [start] where [sub]
    occurs in [s], or [-1]; a negative [start] counts from the end. *)
Definition find (s sub : string) (start : Z) : Z :=
  let len := Z.of_nat (String.length s) in
  let from := if (start <? 0)%Z then Z.max 0 (len + start) else start in
  match String.index (Z.to_nat from) sub s with
  | Some i => Z.of_nat i
  | None => (-1)%Z
  end.

(** [s[a:b]] and [s[a:]] for indices that are not negative. *)
Definition slice (s : string) (a b : nat) : string := substring a (b - a) s.

Definition slice_from (s : string) (a : nat) : string :=
  substring a (String.length s - a) s.

(** [_split_section] *)
Definition _split_section (data begin_marker end_marker : string)
    : string * string * string :=
  let start := find data begin_marker 0 in
  let end_ := find data end_marker start in
  if ((0 <=? start)%Z && (0 <=? end_)%Z)%bool then
    let prefix := slice data 0 (Z.to_nat start) in
    let middle :=
      slice data (Z.to_nat start + String.length begin_marker) (Z.to_nat end_) in
    let suffix :=
      slice_from data (Z.to_nat end_ + String.length end_marker + 1) in
    (prefix, middle, suffix)
  else (data, "", "").

(** A text file open for writing: what has been written, in order, and
    the attribute [_SetuptoolsRenderer_tempcopy_rendered] that
    [_render_temp_file_copy_function] sets on it. *)
Record TextIO : Type := {
  written : list string;
  _SetuptoolsRenderer_tempcopy_rendered : bool
}.

Definition new_file : TextIO :=
  {| written := []; _SetuptoolsRenderer_tempcopy_rendered := false |}.

Definition getvalue (fp : TextIO) : string := String.concat "" (written fp).

(** [fp.write(s)] *)
Definition write (s : string) (fp : TextIO) : TextIO :=
  {| written := written fp ++ [s];
     _SetuptoolsRenderer_tempcopy_rendered :=
       _SetuptoolsRenderer_tempcopy_rendered fp |}.

(** [_rewrite_section]: a context manager; [body] is the block under
    [with], which writes to the file it is given. *)
Definition _rewrite_section (fp : TextIO) (data begin_marker end_marker : string)
    (body : TextIO -> TextIO) : TextIO :=
  let '(prefix, _, suffix) := _split_section data begin_marker end_marker in
  let fp := write prefix fp in
  let fp := write (begin_marker ++ nl)%string fp in
  let fp := body fp in
  let fp := write (end_marker ++ nl)%string fp in
  write suffix fp.

(** [SetuptoolsRenderer._BEGIN_SECTION] and [_END_SECTION] *)
Definition _BEGIN_SECTION : string :=
  "# This section is auto-generated by Shut. DO NOT EDIT {".
Definition _END_SECTION : string := "# }".

(** The text of the function [_tempcopy], after [textwrap.dedent] and
    [lstrip]. *)
Definition tempcopy_source : string :=
  lines [
    "def _tempcopy(src, dst):";
    "  import atexit, shutil";
    "  if not os.path.isfile(dst):";
    "    if not os.path.isfile(src):";
    ("      print('warning: source file " ++ dq ++ "{}" ++ dq
       ++ " for destination " ++ dq ++ "{}" ++ dq
       ++ " does not exist'.format(src, dst))")%string;
    "      return";
    "    shutil.copyfile(src, dst)";
    "    atexit.register(lambda: os.remove(dst))" ].

(** [_render_temp_file_copy_function] *)
Definition _render_temp_file_copy_function (fp : TextIO) : TextIO :=
  if _SetuptoolsRenderer_tempcopy_rendered fp then fp
  else
    let fp := {| written := written fp;
                 _SetuptoolsRenderer_tempcopy_rendered := true |} in
    let fp := write nl fp in
    let fp := write tempcopy_source fp in
    write nl fp.

(** The code that reads the readme into [long_description]. *)
Definition read_readme_source : string :=
  lines [
    "if os.path.isfile(readme_file):";
    "  with io.open(readme_file, encoding='utf8') as fp:";
    "    long_description = fp.read()";
    "else:";
    ("  print(" ++ dq ++ "warning: file \" ++ dq ++ "{}\" ++ dq
       ++ " does not exist." ++ dq
       ++ ".format(readme_file), file=sys.stderr)")%string;
    "  long_description = None" ].

(** What the renderer reads from the package model. *)
Record PackageModel : Type := {
  get_readme_file : option string;
  get_directory : string
}.

(** [os.path.relpath], [os.path.basename] and [nr.fs.issub]. *)
Record OsPath : Type := {
  relpath : string -> string -> string;
  basename : string -> string;
  issub : string -> bool
}.

(** The named tuple [_ReadmeStatus]. *)
Record ReadmeStatus : Type := {
  path : string;
  runtime_path : string;
  outside : bool
}.

(** A requirement, with its rendering for setuptools. *)
Record Requirement : Type := {
  package : string;
  to_setuptools : string
}.

Section Renderer.

Variable os_path : OsPath.
(** [repr] of a [str]. *)
Variable repr : string -> string.

(** [_get_readme_status]; [not readme] holds for [None] and for the empty
    string. *)
Definition _get_readme_status (package : PackageModel) : option ReadmeStatus :=
  match get_readme_file package with
  | None => None
  | Some EmptyString => None
  | Some readme =>
      let readme := relpath os_path readme (get_directory package) in
      let is_inside := issub os_path readme in
      let readme_relative_path :=
        if is_inside then readme else basename os_path readme in
      Some {| path := readme; runtime_path := readme_relative_path;
              outside := negb is_inside |}
  end.

(** [_render_readme_code]: the file after the call and the pair that is
    returned. *)
Definition _render_readme_code (fp : TextIO) (package : PackageModel)
    : TextIO * (option string * option string) :=
  match _get_readme_status package with
  | None => (fp, (None, None))
  | Some readme =>
      let fp :=
        write (nl ++ "readme_file = " ++ repr (runtime_path readme) ++ nl)%string fp in
      let fp :=
        if outside readme then
          write ("_tempcopy(" ++ repr (path readme) ++ ", readme_file)" ++ nl)%string
            (_render_temp_file_copy_function fp)
        else fp in
      let fp := write read_readme_source fp in
      (fp, (Some (path readme), Some "long_description"))
  end.

(** ['  ' * n] *)
Fixpoint spaces2 (n : nat) : string :=
  match n with
  | 0 => ""
  | S n' => ("  " ++ spaces2 n')%string
  end.

Definition not_python (r : Requirement) : bool :=
  negb (String.eqb (package r) "python").

(** [_format_reqs] *)
Definition _format_reqs (reqs : list Requirement) (level : nat) : string :=
  let indent := spaces2 (level + 1) in
  let reqs := filter not_python reqs in
  match reqs with
  | [] => "[]"
  | _ :: _ =>
      ("[" ++ nl
       ++ String.concat ""
            (map (fun x => (indent ++ repr (to_setuptools x) ++ "," ++ nl)%string)
               (filter not_python reqs))
       ++ "]")%string
  end.

(** [SetuptoolsRenderer._ENTRTYPOINT_VARS], in the order of the literal. *)
Definition _ENTRTYPOINT_VARS : list (string * string) :=
  [("python-major-version", "sys.version[0]");
   ("python-major-minor-version", "sys.version[:3]")].

(** [sub in s] *)
Definition contains (sub s : string) : bool :=
  match String.index 0 sub s with Some _ => true | None => false end.

(** [s.replace(old, new)] for a non-empty [old]: the occurrences are
    replaced from the left, without overlap. *)
Fixpoint replace_loop (fuel : nat) (old new s : string) : string :=
  match fuel with
  | 0 => s
  | S fuel' =>
      if String.prefix old s
      then (new ++ replace_loop fuel' old new (slice_from s (String.length old)))%string
      else match s with
           | EmptyString => EmptyString
           | String c s' => String c (replace_loop fuel' old new s')
           end
  end.

Definition replace (old new s : string) : string :=
  replace_loop (S (String.length s)) old new s.

(** [str(n)] *)
Definition str (n : nat) : string := NilZero.string_of_uint (Nat.to_uint n).

(** [s.strip()]: the characters for which [isspace] holds. *)
Definition is_space (c : ascii) : bool :=
  let n := nat_of_ascii c in
  (Nat.leb 9 n && Nat.leb n 13) || (Nat.leb 28 n && Nat.leb n 32)
  || Nat.eqb n 133 || Nat.eqb n 160.

Fixpoint lstrip (s : string) : string :=
  match s with
  | EmptyString => EmptyString
  | String c s' => if is_space c then lstrip s' else s
  end.

Fixpoint rstrip (s : string) : string :=
  match s with
  | EmptyString => EmptyString
  | String c s' =>
      match rstrip s' with
      | EmptyString => if is_space c then EmptyString else String c EmptyString
      | t => String c t
      end
  end.

Definition strip (s : string) : string := rstrip (lstrip s).

(** The line of one item of an entry point group: the inner loops of
    [_render_entrypoints]. *)
Definition render_item (item : string) : string :=
  let '(item, args) :=
    fold_left
      (fun (state : string * list string) (var : string * string) =>
         let '(item, args) := state in
         let '(varname, expr) := var in
         let varname := ("{{" ++ varname ++ "}}")%string in
         if contains varname item
         then (replace varname ("{" ++ str (List.length args) ++ "}")%string item,
               args ++ [expr])
         else (item, args))
      _ENTRTYPOINT_VARS (repr item, []) in
  let item :=
    match args with
    | [] => item
    | _ :: _ => (item ++ ".format(" ++ String.concat ", " args ++ ")")%string
    end in
  ("      " ++ strip item ++ ",")%string.

(** One turn of the loop over the entry point groups. *)
Definition append_group (lines : list string) (group : string * list string)
    : list string :=
  let '(key, value) := group in
  (lines ++ [("    " ++ repr key ++ ": [")%string])
  ++ map render_item value ++ ["    ],"].

(** [lines[-1] = lines[-1][:-1]] on a list that is not empty. *)
Definition cut_last_line (lines : list string) : list string :=
  match rev lines with
  | [] => []
  | last :: front =>
      rev front ++ [substring 0 (String.length last - 1) last]
  end.

(** [_render_entrypoints]; the dict is the list of its items. *)
Definition _render_entrypoints (entrypoints : list (string * list string))
    : string :=
  match entrypoints with
  | [] => "{}"
  | _ :: _ =>
      let lines := fold_left append_group entrypoints ["{"] in
      let lines := cut_last_line lines in
      let lines := lines ++ ["  }"] in
      String.concat nl lines
  end.

(** The lines of one group, with what follows its closing bracket. *)
Definition group_lines (closing : string) (group : string * list string)
    : list string :=
  ("    " ++ repr (fst group) ++ ": [")%string
  :: map render_item (snd group) ++ [("    ]" ++ closing)%string].

(** [_render_requirements] *)
Definition _render_requirements (fp : TextIO) (target : string)
    (requirements : list Requirement) : TextIO :=
  write (target ++ " = " ++ _format_reqs requirements 0 ++ nl)%string fp.

End Renderer.

(** A step of rendering that may define [_tempcopy]. *)
Inductive render_step : Type :=
| TempFileCopyFunction
| ReadmeCode (package : PackageModel).

Definition run_step (os_path : OsPath) (repr : string -> string)
    (fp : TextIO) (step : render_step) : TextIO :=
  match step with
  | TempFileCopyFunction => _render_temp_file_copy_function fp
  | ReadmeCode package => fst (_render_readme_code os_path repr fp package)
  end.

(** How often the text of [_tempcopy] has been written to the file. *)
Definition defined (fp : TextIO) : nat :=
  count_occ string_dec (written fp) tempcopy_source.

(** The definition is in the file exactly when the attribute is set. *)
Definition tracked (fp : TextIO) : Prop :=
  defined fp = if _SetuptoolsRenderer_tempcopy_rendered fp then 1 else 0.

(** A manifest that holds the section, and a body that writes one entry. *)
Definition sample_manifest : string :=
  ("include README.md" ++ nl ++ _BEGIN_SECTION ++ nl
   ++ "include old.txt" ++ nl ++ _END_SECTION ++ nl
   ++ "include extra.txt" ++ nl)%string.

Definition sample_body (fp : TextIO) : TextIO :=
  write ("include setup.py" ++ nl)%string fp.

Definition sample_os_path : OsPath :=
  {| relpath := fun p _ => p;
     basename := fun _ => "README.md";
     issub := fun p => negb (String.prefix "../" p) |}.

Definition sample_package : PackageModel :=
  {| get_readme_file := Some "../README.md"; get_directory := "/repo/a" |}.

End Setuptools.

(** * Properties *)

Module StrOrder.

Lemma ascii_compare_refl (c : ascii) : Ascii.compare c c = Eq.
Proof. unfold Ascii.compare. apply N.compare_refl. Qed.

Lemma ascii_compare_lt_trans (a b c : ascii) :
  Ascii.compare a b = Lt -> Ascii.compare b c = Lt -> Ascii.compare a c = Lt.
Proof.
  unfold Ascii.compare. rewrite !N.compare_lt_iff. apply N.lt_trans.
Qed.

Lemma ascii_compare_eq (a b : ascii) : Ascii.compare a b = Eq -> a = b.
Proof. apply Ascii.compare_eq_iff. Qed.

Lemma compare_lt_trans (s1 : string) :
  forall s2 s3, String.compare s1 s2 = Lt -> String.compare s2 s3 = Lt ->
                String.compare s1 s3 = Lt.
Proof.
  induction s1 as [|a s1 IH]; intros [|b s2] [|c s3]; simpl;
    try discriminate; try reflexivity.
  destruct (Ascii.compare a b) eqn:Hab; try discriminate;
    destruct (Ascii.compare b c) eqn:Hbc; try discriminate; intros H1 H2.
  - apply ascii_compare_eq in Hab; apply ascii_compare_eq in Hbc; subst.
    rewrite ascii_compare_refl. eauto.
  - apply ascii_compare_eq in Hab; subst. now rewrite Hbc.
  - apply ascii_compare_eq in Hbc; subst. now rewrite Hab.
  - now rewrite (ascii_compare_lt_trans _ _ _ Hab Hbc).
Qed.

Lemma compare_refl (s : string) : String.compare s s = Eq.
Proof. induction s as [|a s IH]; simpl; [reflexivity|]. now rewrite ascii_compare_refl. Qed.

Lemma ltb_lt (a b : string) : String.ltb a b = true <-> String.compare a b = Lt.
Proof. unfold String.ltb. destruct (String.compare a b); intuition congruence. Qed.

Lemma ltb_nlt (a b : string) : String.ltb a b = false <-> str_le b a.
Proof.
  unfold str_le, String.ltb, String.leb. rewrite (String.compare_antisym a b).
  destruct (String.compare b a); simpl; intuition congruence.
Qed.

Lemma le_refl (a : string) : str_le a a.
Proof. unfold str_le, String.leb. now rewrite compare_refl. Qed.

Lemma lt_le (a b : string) : String.ltb a b = true -> str_le a b.
Proof.
  unfold str_le, String.leb. rewrite ltb_lt. now intros ->.
Qed.

Lemma le_cases (a b : string) : str_le a b <-> a = b \/ String.compare a b = Lt.
Proof.
  unfold str_le, String.leb. destruct (String.compare a b) eqn:E.
  - apply String.compare_eq_iff in E. intuition.
  - intuition.
  - split; [discriminate|]. intros [->|H]; [|discriminate].
    rewrite compare_refl in E. discriminate.
Qed.

Lemma le_trans (a b c : string) : str_le a b -> str_le b c -> str_le a c.
Proof.
  rewrite !le_cases. intros [->|H1] [->|H2]; auto.
  right. eapply compare_lt_trans; eauto.
Qed.

Lemma le_antisym (a b : string) : str_le a b -> str_le b a -> a = b.
Proof. apply String.leb_antisym. Qed.

End StrOrder.

(** ** Lists *)

Section ListFacts.

Variable K : Type.
Variable K_eq_dec : forall a b : K, {a = b} + {a <> b}.

Lemma mem_In (k : K) (l : list K) : mem K_eq_dec k l = true <-> In k l.
Proof.
  unfold mem. destruct (in_dec K_eq_dec k l); intuition congruence.
Qed.

Lemma repeated_element (l : list K) :
  ~ NoDup l -> exists x l1 l2 l3, l = l1 ++ x :: l2 ++ x :: l3.
Proof.
  induction l as [|a l IH]; intros Hnd.
  - destruct Hnd. constructor.
  - destruct (in_dec K_eq_dec a l) as [Hin|Hnin].
    + apply in_split in Hin. destruct Hin as (l2 & l3 & ->).
      now exists a, [], l2, l3.
    + destruct IH as (x & l1 & l2 & l3 & ->).
      * intros Hl. apply Hnd. now constructor.
      * now exists x, (a :: l1), l2, l3.
Qed.

Lemma pigeonhole (l u : list K) :
  incl l u -> List.length u < List.length l ->
  exists x l1 l2 l3, l = l1 ++ x :: l2 ++ x :: l3.
Proof.
  intros Hincl Hlen. apply repeated_element. intros Hnd.
  pose proof (NoDup_incl_length Hnd Hincl). lia.
Qed.

Variable R : K -> K -> Prop.

Lemma clos_trans_mono (R' : K -> K -> Prop) (x y : K) :
  (forall a b, R' a b -> R a b) -> clos_trans K R' x y -> clos_trans K R x y.
Proof.
  intros Hsub Hc. induction Hc as [a b H|a b c _ IH1 _ IH2].
  - apply t_step. now apply Hsub.
  - now apply t_trans with b.
Qed.

Lemma walk_reaches (l1 : list K) :
  forall x l2 y, walk R (x :: l1 ++ y :: l2) -> clos_trans K R x y.
Proof.
  induction l1 as [|z l1 IH]; intros x l2 y; simpl.
  - intros [Hxy _]. now apply t_step.
  - intros [Hxz Hw]. apply t_trans with z; [now apply t_step|].
    apply (IH z l2 y). exact Hw.
Qed.

Lemma walk_app_r (l1 l2 : list K) : walk R (l1 ++ l2) -> walk R l2.
Proof.
  induction l1 as [|z l1 IH]; simpl; [auto|]. intros [_ Hw]. auto.
Qed.

(** In a non-empty finite set where every element has a predecessor inside
    the set, there is a cycle. *)
Lemma long_walk (u : list K) (n : nat) :
  u <> [] ->
  (forall k, In k u -> exists a, In a u /\ R a k) ->
  exists l, List.length l = S n /\ incl l u /\ walk R l.
Proof.
  intros Hne Hpred. induction n as [|n IH].
  - destruct u as [|x u]; [congruence|]. exists [x]. repeat split; simpl; auto.
    intros y [<-|[]]. now left.
  - destruct IH as (l & Hlen & Hincl & Hw).
    destruct l as [|h t]; [discriminate|].
    destruct (Hpred h) as (a & Ha & Hah); [apply Hincl; now left|].
    exists (a :: h :: t). split; [simpl in *; lia|]. split.
    + intros y [<-|Hy]; auto.
    + split; [exact Hah | exact Hw].
Qed.

Lemma no_minimal_cycle (u : list K) :
  u <> [] ->
  (forall k, In k u -> exists a, In a u /\ R a k) ->
  exists x, In x u /\ clos_trans K R x x.
Proof.
  intros Hne Hpred.
  destruct (long_walk (List.length u) Hne Hpred) as (l & Hlen & Hincl & Hw).
  destruct (pigeonhole Hincl) as (x & l1 & l2 & l3 & ->); [lia|].
  exists x. split.
  - apply Hincl. apply in_or_app. right. now left.
  - apply walk_app_r in Hw. eapply walk_reaches. exact Hw.
Qed.

End ListFacts.

(** ** The graph and the sort *)

Section GraphFacts.

Variable K : Type.
Variable K_eq_dec : forall a b : K, {a = b} + {a <> b}.


Lemma nodes_add_node (g : DiGraph K) (x k : K) :
  In k (nodes (add_node K_eq_dec g x)) <-> In k (nodes g) \/ k = x.
Proof.
  unfold add_node. destruct (mem K_eq_dec x (nodes g)) eqn:E; simpl.
  - apply mem_In in E. intuition (subst; auto).
  - rewrite in_app_iff. simpl. intuition.
Qed.

Lemma edges_add_node (g : DiGraph K) (x : K) : edges (add_node K_eq_dec g x) = edges g.
Proof. unfold add_node. now destruct (mem K_eq_dec x (nodes g)). Qed.

Lemma edge_add_node (g : DiGraph K) (x a b : K) :
  edge (add_node K_eq_dec g x) a b <-> edge g a b.
Proof. unfold edge. now rewrite edges_add_node. Qed.

Lemma NoDup_add_node (g : DiGraph K) (x : K) :
  NoDup (nodes g) -> NoDup (nodes (add_node K_eq_dec g x)).
Proof.
  intros Hnd. unfold add_node. destruct (mem K_eq_dec x (nodes g)) eqn:E; simpl; auto.
  apply NoDup_app; auto.
  - repeat constructor. simpl. tauto.
  - intros a Ha [<-|[]]. apply (proj2 (mem_In K_eq_dec _ _)) in Ha. congruence.
Qed.

Lemma nodes_add_edge (g : DiGraph K) (a b k : K) :
  In k (nodes (add_edge K_eq_dec g a b)) <-> In k (nodes g) \/ k = a \/ k = b.
Proof.
  unfold add_edge. simpl. rewrite !nodes_add_node. tauto.
Qed.

Lemma edges_add_edge (g : DiGraph K) (a b x y : K) :
  edge (add_edge K_eq_dec g a b) x y <-> edge g x y \/ (x = a /\ y = b).
Proof.
  unfold edge, add_edge. simpl. rewrite !edges_add_node, in_app_iff. simpl.
  intuition congruence.
Qed.

Lemma NoDup_add_edge (g : DiGraph K) (a b : K) :
  NoDup (nodes g) -> NoDup (nodes (add_edge K_eq_dec g a b)).
Proof.
  intros Hnd. unfold add_edge. simpl. now do 2 apply NoDup_add_node.
Qed.

Lemma In_predecessors (g : DiGraph K) (a k : K) :
  In a (predecessors K_eq_dec g k) <-> edge g a k.
Proof.
  unfold predecessors, edge. rewrite in_map_iff. split.
  - intros ([x y] & <- & Hin). apply filter_In in Hin. destruct Hin as [Hin Hy].
    simpl in *. destruct (K_eq_dec y k); [now subst|discriminate].
  - intros Hin. exists (a, k). split; [reflexivity|]. apply filter_In.
    split; [assumption|]. simpl. now destruct (K_eq_dec k k).
Qed.

Lemma eligible_spec (g : DiGraph K) (e : list K) (k : K) :
  eligible K_eq_dec g e k = true <-> forall a, edge g a k -> In a e.
Proof.
  unfold eligible. rewrite forallb_forall. split.
  - intros H a Ha. apply (proj1 (mem_In K_eq_dec _ _)). apply H.
    now apply In_predecessors.
  - intros H a Ha. apply (proj2 (mem_In K_eq_dec _ _)). apply H.
    now apply In_predecessors.
Qed.

Lemma not_eligible (g : DiGraph K) (e : list K) (k : K) :
  eligible K_eq_dec g e k = false -> exists a, edge g a k /\ ~ In a e.
Proof.
  unfold eligible. intros H.
  assert (Hex : existsb (fun a => negb (mem K_eq_dec a e)) (predecessors K_eq_dec g k) = true).
  { induction (predecessors K_eq_dec g k) as [|a l IH]; simpl in *; [discriminate|].
    destruct (mem K_eq_dec a e); simpl in *; auto. }
  apply existsb_exists in Hex. destruct Hex as (a & Ha & Hm).
  exists a. split; [now apply In_predecessors|].
  intros Hin. apply (proj2 (mem_In K_eq_dec _ _)) in Hin.
  rewrite Hin in Hm. discriminate.
Qed.

Lemma respects_closed (g : DiGraph K) (e : list K) (a b : K) :
  respects g e -> In b e -> edge g a b -> In a e.
Proof.
  induction e as [|m e IH]; simpl; [tauto|].
  intros [Hm He] [<-|Hb] Hab; right; auto.
Qed.

Lemma respects_no_cycle (g : DiGraph K) (e : list K) :
  respects g e -> forall x, In x e -> ~ clos_trans K (edge g) x x.
Proof.
  induction e as [|m e IH]; simpl; [tauto|].
  intros [Hm He] x [<-|Hx] Hcyc; [|now apply (IH He x)].
  apply clos_trans_tn1 in Hcyc. inversion Hcyc as [Hmm|y z Hym Hmy]; subst.
  - apply (IH He m); [now apply Hm|]. now apply t_step.
  - apply (IH He y); [now apply Hm|].
    apply t_trans with m; [now apply t_step|]. now apply clos_tn1_trans.
Qed.

Lemma respects_precedes (g : DiGraph K) (e : list K) (a b : K) :
  respects g e -> In b e -> edge g a b -> precedes (rev e) a b.
Proof.
  induction e as [|m e IH]; simpl; [tauto|].
  intros [Hm He] [<-|Hb] Hab.
  - destruct (in_split _ _ (Hm a Hab)) as (x1 & x2 & ->).
    exists (rev x2), (rev x1), []. rewrite rev_app_distr. simpl.
    now rewrite <- !app_assoc.
  - destruct (IH He Hb Hab) as (l1 & l2 & l3 & ->).
    exists l1, l2, (l3 ++ [m]). rewrite <- !app_assoc. simpl.
    now rewrite <- !app_assoc.
Qed.

Lemma filter_none (f : K -> bool) (l : list K) :
  filter f l = [] -> forall k, In k l -> f k = false.
Proof.
  intros Hnil k Hk. destruct (f k) eqn:E; [|reflexivity].
  assert (Hin : In k (filter f l)) by (apply filter_In; auto).
  rewrite Hnil in Hin. destruct Hin.
Qed.

Lemma finish_sorted (pending emitted l : list K) :
  finish pending emitted = Sorted l -> pending = [] /\ l = rev emitted.
Proof. destruct pending; simpl; intros H; inversion H; auto. Qed.

Lemma finish_unsorted (pending emitted u : list K) :
  finish pending emitted = Unsorted u -> u = pending /\ pending <> [].
Proof. destruct pending; simpl; intros H; inversion H; split; congruence. Qed.

Lemma In_remove_iff (m k : K) (l : list K) :
  In k (remove K_eq_dec m l) <-> In k l /\ k <> m.
Proof.
  split; [apply in_remove|]. intros [H1 H2]. now apply in_in_remove.
Qed.

End GraphFacts.

Section SortFacts.

Variable K : Type.
Variable K_eq_dec : forall a b : K, {a = b} + {a <> b}.
Variable key : K -> string.

Lemma smallest_In (l : list K) : forall x, In (smallest key x l) (x :: l).
Proof.
  induction l as [|y l IH]; intros x; simpl; [auto|].
  destruct (IH (if String.ltb (key y) (key x) then y else x)) as [H|H]; auto.
  destruct (String.ltb (key y) (key x)); rewrite <- H; auto.
Qed.

Lemma smallest_le (l : list K) :
  forall x y, In y (x :: l) -> str_le (key (smallest key x l)) (key y).
Proof.
  induction l as [|z l IH]; intros x y Hy; simpl.
  - destruct Hy as [<-|[]]. apply StrOrder.le_refl.
  - set (x' := if String.ltb (key z) (key x) then z else x).
    assert (Hx' : str_le (key x') (key x) /\ str_le (key x') (key z)).
    { unfold x'. destruct (String.ltb (key z) (key x)) eqn:E.
      - split; [now apply StrOrder.lt_le | apply StrOrder.le_refl].
      - split; [apply StrOrder.le_refl | now apply StrOrder.ltb_nlt]. }
    destruct Hy as [<-|[<-|Hy]].
    + apply StrOrder.le_trans with (key x'); [|tauto]. apply IH. now left.
    + apply StrOrder.le_trans with (key x'); [|tauto]. apply IH. now left.
    + apply IH. now right.
Qed.

(** What a successful run of the loop returns. *)
Lemma sort_loop_sorted (g : DiGraph K) (n : nat) :
  forall pending emitted l,
    sort_loop K_eq_dec key g n pending emitted = Sorted l ->
    respects g emitted -> NoDup emitted ->
    (forall k, In k pending -> ~ In k emitted) ->
    (forall k, In k (nodes g) -> In k pending \/ In k emitted) ->
    exists e suffix,
      l = rev e /\ respects g e /\ NoDup e /\
      (forall k, In k e <-> In k pending \/ In k emitted) /\
      l = rev emitted ++ suffix /\
      smallest_first g key (rev emitted) suffix.
Proof.
  assert (Hfin : forall pending emitted l,
    finish pending emitted = Sorted l ->
    respects g emitted -> NoDup emitted ->
    exists e suffix,
      l = rev e /\ respects g e /\ NoDup e /\
      (forall k, In k e <-> In k pending \/ In k emitted) /\
      l = rev emitted ++ suffix /\
      smallest_first g key (rev emitted) suffix).
  { intros pending emitted l Hf Hr Hnd. apply finish_sorted in Hf.
    destruct Hf as [-> ->]. exists emitted, []. rewrite app_nil_r.
    repeat split; simpl; auto; tauto. }
  induction n as [|n IH]; intros pending emitted l Hrun Hr Hnd Hdis Hcov; simpl in Hrun.
  - now apply Hfin.
  - destruct (filter (eligible K_eq_dec g emitted) pending) as [|x rest] eqn:Hfil.
    + now apply Hfin.
    + set (m := smallest key x rest) in *.
      assert (Hm : In m pending /\ eligible K_eq_dec g emitted m = true).
      { apply filter_In. rewrite Hfil. apply smallest_In. }
      destruct Hm as [Hmp Hme].
      destruct (IH _ _ _ Hrun) as (e & suffix & He & Hre & Hnde & Hmem & Hl & Hsf).
      * simpl. split; [|assumption]. now apply (eligible_spec K_eq_dec).
      * constructor; auto.
      * intros k Hk [<-|Hin].
        -- apply (In_remove_iff K_eq_dec) in Hk. tauto.
        -- apply (In_remove_iff K_eq_dec) in Hk. apply (Hdis k); tauto.
      * intros k Hk. destruct (K_eq_dec k m) as [->|Hne]; [right; now left|].
        destruct (Hcov k Hk) as [H|H]; [left; apply (In_remove_iff K_eq_dec); tauto|right; now right].
      * exists e, (m :: suffix). repeat split; auto.
        -- intros Hk. apply Hmem in Hk. rewrite In_remove_iff in Hk. simpl in Hk.
           destruct Hk as [[H _]|[<-|H]]; auto.
        -- intros Hk. apply Hmem. rewrite In_remove_iff. simpl.
           destruct (K_eq_dec k m) as [->|Hne]; [right; now left|]. tauto.
        -- rewrite Hl. simpl. now rewrite <- app_assoc.
        -- intros y Hy Hnpre Hpre.
           assert (Hyp : In y pending).
           { destruct (Hcov y Hy) as [H|H]; [assumption|].
             exfalso. apply Hnpre. now apply -> in_rev. }
           assert (Hye : eligible K_eq_dec g emitted y = true).
           { apply (eligible_spec K_eq_dec). intros a Ha. apply in_rev. now apply Hpre. }
           apply smallest_le. rewrite <- Hfil. apply filter_In. auto.
Qed.

(** What a failed run of the loop reports. *)
Lemma sort_loop_unsorted (g : DiGraph K) (n : nat) :
  forall pending emitted u,
    sort_loop K_eq_dec key g n pending emitted = Unsorted u ->
    List.length pending <= n ->
    respects g emitted ->
    exists e,
      respects g e /\ u <> [] /\
      (forall k, In k pending \/ In k emitted <-> In k u \/ In k e) /\
      (forall k, In k u -> eligible K_eq_dec g e k = false).
Proof.
  induction n as [|n IH]; intros pending emitted u Hrun Hlen Hr; simpl in Hrun.
  - destruct pending; simpl in *; [discriminate|lia].
  - destruct (filter (eligible K_eq_dec g emitted) pending) as [|x rest] eqn:Hfil.
    + apply finish_unsorted in Hrun. destruct Hrun as [-> Hne].
      exists emitted. repeat split; auto; try tauto.
      intros k Hk. now apply (@filter_none _ _ _ Hfil).
    + set (m := smallest key x rest) in *.
      assert (Hm : In m pending /\ eligible K_eq_dec g emitted m = true).
      { apply filter_In. rewrite Hfil. apply smallest_In. }
      destruct Hm as [Hmp Hme].
      destruct (IH _ _ _ Hrun) as (e & Hre & Hne & Hmem & Hstuck).
      * pose proof (remove_length_lt K_eq_dec pending m Hmp). lia.
      * simpl. split; [|assumption]. now apply (eligible_spec K_eq_dec).
      * exists e. repeat split; auto.
        -- intros Hk. apply Hmem. rewrite In_remove_iff. simpl.
           destruct (K_eq_dec k m) as [->|Hkm]; [right; now left|]. tauto.
        -- intros Hk. apply Hmem in Hk. rewrite In_remove_iff in Hk. simpl in Hk.
           destruct Hk as [[H _]|[<-|H]]; auto.
Qed.

(** A successful sort lists every node once, puts every edge's source
    before its target, and obeys the tie-break law. *)
Lemma topological_sort_sorted (g : DiGraph K) (l : list K) :
  topological_sort K_eq_dec key g = Sorted l ->
  NoDup l /\ (forall k, In k (nodes g) -> In k l) /\
  (forall k, In k l -> In k (nodes g)) /\
  (forall a b, In b (nodes g) -> edge g a b -> precedes l a b) /\
  smallest_first g key [] l.
Proof.
  unfold topological_sort. intros Hrun.
  destruct (@sort_loop_sorted _ _ _ _ _ Hrun) as (e & suffix & -> & Hre & Hnd & Hmem & Hl & Hsf);
    simpl; auto; try (now constructor).
  simpl in Hl. split; [now apply NoDup_rev|].
  split; [|split; [|split]].
  - intros k Hk. apply -> in_rev. apply Hmem. now left.
  - intros k Hk. apply in_rev in Hk. apply Hmem in Hk. simpl in Hk. tauto.
  - intros a b Hb Hab. apply (@respects_precedes _ g e a b Hre); auto.
    apply Hmem. now left.
  - rewrite Hl. exact Hsf.
Qed.

(** A failed sort reports nodes among which there is a cycle. *)
Lemma topological_sort_unsorted (g : DiGraph K) (u : list K) :
  well_formed g ->
  topological_sort K_eq_dec key g = Unsorted u ->
  incl u (nodes g) /\ exists x, In x u /\ clos_trans K (edge g) x x.
Proof.
  unfold topological_sort. intros [Hnd Hwf] Hrun.
  destruct (@sort_loop_unsorted _ _ _ _ _ Hrun) as (e & Hre & Hne & Hmem & Hstuck);
    simpl; auto.
  assert (Hdisj : forall k, In k u -> ~ In k e).
  { intros k Hk Hke. pose proof (Hstuck k Hk) as Hel.
    assert (Ht : eligible K_eq_dec g e k = true).
    { apply (eligible_spec K_eq_dec). intros a Ha. eapply respects_closed; eauto. }
    congruence. }
  split.
  - intros k Hk. destruct (proj2 (Hmem k)) as [H|[]]; auto.
  - assert (Hcyc : exists x, In x u /\ clos_trans K (fun a b => edge g a b /\ In a u) x x).
    { apply no_minimal_cycle; auto. intros k Hk.
      destruct (@not_eligible _ K_eq_dec _ _ _ (Hstuck k Hk)) as (a & Hak & Hna).
      assert (Hau : In a u).
      { destruct (proj1 (Hmem a)) as [H|H]; [left; now apply (Hwf a k)|assumption|contradiction]. }
      exists a. auto. }
    destruct Hcyc as (x & Hx & Hc). exists x. split; [assumption|].
    apply (@clos_trans_mono K (edge g) (fun a b => edge g a b /\ In a u)); [tauto|exact Hc].
Qed.

(** A node on a cycle is reported, and no order is returned. *)
Lemma topological_sort_cycle (g : DiGraph K) (x : K) :
  In x (nodes g) -> clos_trans K (edge g) x x ->
  exists u, topological_sort K_eq_dec key g = Unsorted u /\ In x u.
Proof.
  intros Hx Hcyc. destruct (topological_sort K_eq_dec key g) as [l|u] eqn:Hrun.
  - exfalso. unfold topological_sort in Hrun.
    destruct (@sort_loop_sorted _ _ _ _ _ Hrun) as (e & suffix & -> & Hre & Hnd & Hmem & _);
      simpl; auto; try (now constructor).
    apply (@respects_no_cycle _ g e Hre x); auto. apply Hmem. now left.
  - exists u. split; [reflexivity|]. unfold topological_sort in Hrun.
    destruct (@sort_loop_unsorted _ _ _ _ _ Hrun) as (e & Hre & Hne & Hmem & Hstuck);
      simpl; auto.
    destruct (proj1 (Hmem x)) as [H|H]; auto.
    exfalso. now apply (@respects_no_cycle _ g e Hre x).
Qed.

(** Without a cycle the sort succeeds. *)
Lemma topological_sort_acyclic (g : DiGraph K) :
  well_formed g -> acyclic (edge g) ->
  exists l, topological_sort K_eq_dec key g = Sorted l.
Proof.
  intros Hwf Hac. destruct (topological_sort K_eq_dec key g) as [l|u] eqn:Hrun.
  - now exists l.
  - destruct (topological_sort_unsorted Hwf Hrun) as (_ & x & _ & Hc).
    destruct (Hac x Hc).
Qed.

End SortFacts.

(** ** The project graph *)

Section ProjectGraph.

Variable ph : ProjectHandlerPlugin.

Lemma insert_by_id_In (x k : Project) (l : list Project) :
  In k (insert_by_id x l) <-> k = x \/ In k l.
Proof.
  induction l as [|y l IH]; simpl.
  - intuition.
  - destruct (String.ltb (id y) (id x)); simpl; rewrite ?IH; intuition.
Qed.

Lemma sorted_by_id_In (k : Project) (l : list Project) :
  In k (sorted_by_id l) <-> In k l.
Proof.
  induction l as [|x l IH]; simpl; [tauto|].
  rewrite insert_by_id_In, IH. intuition.
Qed.

Lemma get_interdependencies_In (p q : Project) (cs : list Project) :
  In q (get_interdependencies ph p cs) <->
  In q cs /\ q <> p /\
  exists n, get_dist_name ph q = Some n /\ In n (get_dependencies ph p).
Proof.
  unfold get_interdependencies. rewrite filter_In, andb_true_iff, negb_true_iff.
  split.
  - intros (Hq & Hne & Hn). split; [assumption|]. split.
    + destruct (Project_eq_dec q p); congruence.
    + destruct (get_dist_name ph q) as [n|]; [|discriminate].
      exists n. split; [reflexivity|]. apply existsb_exists in Hn.
      destruct Hn as (n' & Hin & Heq). apply String.eqb_eq in Heq. now subst.
  - intros (Hq & Hne & n & Hn & Hin). split; [assumption|]. split.
    + destruct (Project_eq_dec q p); congruence.
    + rewrite Hn. apply existsb_exists. exists n. split; [assumption|].
      apply String.eqb_refl.
Qed.

Lemma get_interdependencies_sorted (p q : Project) (cs : list Project) :
  In q (get_interdependencies ph p (sorted_by_id cs)) <->
  In q (get_interdependencies ph p cs).
Proof. now rewrite !get_interdependencies_In, sorted_by_id_In. Qed.

(** The inner loop over the interdependencies of [project]. *)
Lemma inner_loop (project : Project) (deps : list Project) :
  forall g, In project (nodes g) -> NoDup (nodes g) ->
    let g' := fold_left
      (fun g dep => add_edge Project_eq_dec (add_node Project_eq_dec g dep) dep project)
      deps g in
    NoDup (nodes g') /\
    (forall k, In k (nodes g') <-> In k (nodes g) \/ In k deps) /\
    (forall x y, edge g' x y <-> edge g x y \/ (y = project /\ In x deps)).
Proof.
  induction deps as [|d deps IH]; intros g Hp Hnd; simpl.
  - repeat split; auto; tauto.
  - set (g1 := add_edge Project_eq_dec (add_node Project_eq_dec g d) d project).
    assert (Hn1 : forall k, In k (nodes g1) <-> In k (nodes g) \/ k = d).
    { intros k. unfold g1. rewrite nodes_add_edge, nodes_add_node.
      intuition (subst; auto). }
    destruct (IH g1) as (Hnd' & Hnodes & Hedges).
    + apply Hn1. now left.
    + unfold g1. now apply NoDup_add_edge, NoDup_add_node.
    + split; [assumption|]. split.
      * intros k. rewrite Hnodes, Hn1. intuition.
      * intros x y. rewrite Hedges. unfold g1.
        rewrite edges_add_edge, edge_add_node. intuition (subst; auto).
Qed.

Lemma add_project_spec (ps : list Project) (g : DiGraph Project) (p : Project) :
  NoDup (nodes g) ->
  let g' := add_project ph ps g p in
  NoDup (nodes g') /\
  (forall k, In k (nodes g') <->
             In k (nodes g) \/ k = p \/ In k (get_interdependencies ph p ps)) /\
  (forall x y, edge g' x y <->
               edge g x y \/ (y = p /\ In x (get_interdependencies ph p ps))).
Proof.
  intros Hnd. unfold add_project.
  destruct (@inner_loop p (get_interdependencies ph p ps) (add_node Project_eq_dec g p))
    as (Hnd' & Hnodes & Hedges).
  - apply nodes_add_node. now right.
  - now apply NoDup_add_node.
  - split; [assumption|]. split.
    + intros k. rewrite Hnodes, nodes_add_node. tauto.
    + intros x y. rewrite Hedges, edge_add_node. tauto.
Qed.

(** The outer loop over the projects. *)
Lemma outer_loop (ps l : list Project) :
  forall g, NoDup (nodes g) ->
    let g' := fold_left (add_project ph ps) l g in
    NoDup (nodes g') /\
    (forall k, In k (nodes g') <->
               In k (nodes g) \/ In k l \/
               exists p, In p l /\ In k (get_interdependencies ph p ps)) /\
    (forall x y, edge g' x y <->
                 edge g x y \/ (In y l /\ In x (get_interdependencies ph y ps))).
Proof.
  induction l as [|p l IH]; intros g Hnd; simpl.
  - split; [assumption|]. split.
    + intros k. split; [tauto|]. intros [H|[[]|(p & [] & _)]]. assumption.
    + intros x y. tauto.
  - destruct (@add_project_spec ps g p Hnd) as (Hnd1 & Hn1 & He1).
    destruct (IH _ Hnd1) as (Hnd' & Hnodes & Hedges).
    split; [assumption|]. split.
    + intros k. rewrite Hnodes, Hn1. split.
      * intros [[H|[->|H]]|[H|(q & Hq & H)]]; eauto 6.
      * intros [H|[[<-|H]|(q & [<-|Hq] & H)]]; eauto 6.
    + intros x y. rewrite Hedges, He1. split.
      * intros [[H|[-> H]]|[H1 H2]]; auto.
      * intros [H|[[<-|H1] H2]]; auto.
Qed.

Lemma build_graph_spec (ps : list Project) :
  let g := build_graph ph ps in
  NoDup (nodes g) /\
  (forall k, In k (nodes g) <-> In k ps) /\
  (forall x y, edge g x y <-> In y ps /\ In x (get_interdependencies ph y ps)).
Proof.
  unfold build_graph.
  destruct (@outer_loop ps ps empty_graph) as (Hnd & Hnodes & Hedges);
    [constructor|].
  split; [assumption|]. split.
  - intros k. rewrite Hnodes. simpl. split.
    + intros [[]|[H|(p & _ & H)]]; [assumption|].
      apply get_interdependencies_In in H. tauto.
    + auto.
  - intros x y. rewrite Hedges. unfold edge. simpl. tauto.
Qed.

Lemma build_graph_well_formed (ps : list Project) :
  well_formed (build_graph ph ps).
Proof.
  destruct (build_graph_spec ps) as (Hnd & Hnodes & Hedges).
  split; [assumption|]. intros a b Hab. apply Hedges in Hab.
  destruct Hab as [Hb Ha]. apply get_interdependencies_In in Ha.
  split; apply Hnodes; tauto.
Qed.

(** The edges of the graph built by [_get_projects] are the
    interdependencies of the candidates. *)
Lemma edge_interdependency (raw : list Project) (q p : Project) :
  edge (build_graph ph (sorted_by_id raw)) q p <-> interdependency ph raw q p.
Proof.
  destruct (build_graph_spec (sorted_by_id raw)) as (_ & _ & Hedges).
  rewrite Hedges, sorted_by_id_In, get_interdependencies_sorted.
  reflexivity.
Qed.

Lemma nodes_candidates (raw : list Project) (p : Project) :
  In p (nodes (build_graph ph (sorted_by_id raw))) <-> In p raw.
Proof.
  destruct (build_graph_spec (sorted_by_id raw)) as (_ & Hnodes & _).
  now rewrite Hnodes, sorted_by_id_In.
Qed.

End ProjectGraph.

(** ** Lazy fields of an instance *)

Section RepositoryFacts.

Variable caches_failure : bool.
Variable plugins : Plugins.

Lemma get_repository_handler_pure (r : Repository) :
  _get_repository_handler plugins r = (resolution plugins (config r), r).
Proof.
  unfold resolution, _get_repository_handler, bind, self_config, lift, raise, ret.
  simpl. destruct (handler_name (config r)) as [[v|]|e]; simpl; try reflexivity.
  - destruct v; try reflexivity.
    destruct (load_entrypoint plugins s); [|reflexivity].
    now destruct (matches_repository r0 (config r)).
  - now destruct (matches_repository (DefaultRepositoryHandler plugins) (config r)).
Qed.

Lemma runs_record (f f' : lazy_field) (ok : bool) (r : Repository) :
  runs f (record_run f' ok r) =
  runs f r + (if lazy_field_eq_dec f' f then 1 else 0).
Proof.
  unfold runs, record_run. simpl. rewrite filter_app, length_app. simpl.
  unfold is_field at 2. simpl. now destruct (lazy_field_eq_dec f' f).
Qed.

Lemma computed_record (f f' : lazy_field) (ok : bool) (r : Repository) :
  computed f (record_run f' ok r) =
  computed f r + (if lazy_field_eq_dec f' f then (if ok then 1 else 0) else 0).
Proof.
  unfold computed, record_run. simpl. rewrite filter_app, length_app. simpl.
  unfold is_field at 2. simpl. destruct (lazy_field_eq_dec f' f); [|reflexivity].
  now destruct ok.
Qed.

Lemma runs_set_handler f v r : runs f (set_handler v r) = runs f r.
Proof. reflexivity. Qed.
Lemma runs_set_projects f v r : runs f (set_projects v r) = runs f r.
Proof. reflexivity. Qed.
Lemma runs_set_vcs f v r : runs f (set_vcs v r) = runs f r.
Proof. reflexivity. Qed.
Lemma runs_set_host f v r : runs f (set_host v r) = runs f r.
Proof. reflexivity. Qed.
Lemma computed_set_handler f v r : computed f (set_handler v r) = computed f r.
Proof. reflexivity. Qed.
Lemma computed_set_projects f v r : computed f (set_projects v r) = computed f r.
Proof. reflexivity. Qed.
Lemma computed_set_vcs f v r : computed f (set_vcs v r) = computed f r.
Proof. reflexivity. Qed.
Lemma computed_set_host f v r : computed f (set_host v r) = computed f r.
Proof. reflexivity. Qed.

Ltac count_fields :=
  rewrite ?runs_set_handler, ?runs_set_projects, ?runs_set_vcs, ?runs_set_host,
    ?computed_set_handler, ?computed_set_projects, ?computed_set_vcs,
    ?computed_set_host, ?runs_record, ?computed_record;
  repeat match goal with
  | |- context [lazy_field_eq_dec ?a ?b] =>
      destruct (lazy_field_eq_dec a b); try congruence
  end;
  simpl; rewrite ?Nat.add_0_r; auto; try lia.

(** [self._handler()] returns the outcome of handler resolution, leaves
    the other cells alone, and binds the handler when resolution succeeds. *)
Lemma call_handler_spec (c : Configuration) (r : Repository) :
  consistent plugins c r ->
  exists r',
    call_handler caches_failure plugins r = (resolution plugins c, r') /\
    consistent plugins c r' /\ handler_bound plugins c r' /\
    projects r' = projects r /\ vcs r' = vcs r /\ host r' = host r /\
    (forall f, f <> FHandler -> runs f r' = runs f r /\ computed f r' = computed f r).
Proof.
  intros (Hc & Hh & Hp & Hv & Ho).
  unfold call_handler, once_call. destruct (_handler r) as [|h|e] eqn:Hcell.
  - rewrite get_repository_handler_pure, Hc.
    destruct Hh as [Hok Hruns].
    destruct (resolution plugins c) as [h|e] eqn:Hres; simpl.
    + specialize (Hruns eq_refl). eexists. split; [reflexivity|].
      split; [|split; [|split; [|split; [|split]]]]; try reflexivity.
      * unfold consistent. simpl. rewrite Hres.
        repeat split; auto; count_fields.
      * intros h' _. simpl. eauto.
      * intros f Hf. split; count_fields.
    + destruct caches_failure; eexists; (split; [reflexivity|]);
        (split; [|split; [|split; [|split; [|split]]]]); try reflexivity;
        try (intros f Hf; split; count_fields);
        try (intros h' Hh'; congruence);
        unfold consistent; simpl; rewrite ?Hres, ?Hcell; simpl;
        repeat split; auto; count_fields; try discriminate.
  - destruct Hh as (Hres & Hok & Hruns). rewrite Hres. exists r.
    unfold consistent, handler_bound. rewrite Hcell. simpl.
    repeat split; auto. eauto.
  - destruct Hh as (Hres & Hok). rewrite Hres. exists r.
    unfold consistent, handler_bound. rewrite Hcell. simpl.
    repeat split; auto. intros h Hh. congruence.
Qed.

(** The three fields computed from the handler share one argument: the
    supplier first calls [self._handler()], then asks the handler. *)
Ltac dependent_field Hcons :=
  let r1 := fresh "r1" in
  let Hcall := fresh "Hcall" in
  let Hc1 := fresh "Hc1" in let Hh1 := fresh "Hh1" in let Hp1 := fresh "Hp1" in
  let Hv1 := fresh "Hv1" in let Ho1 := fresh "Ho1" in
  let Hb1 := fresh "Hb1" in let Ep := fresh "Ep" in let Ev := fresh "Ev" in
  let Eo := fresh "Eo" in let Hcnt := fresh "Hcnt" in
  destruct (call_handler_spec Hcons)
    as (r1 & Hcall & (Hc1 & Hh1 & Hp1 & Hv1 & Ho1) & Hb1 & Ep & Ev & Eo & Hcnt);
  unfold _get_projects, _get_vcs, _get_repository_host, bind, self_config, lift, ret;
  rewrite Hcall.

Lemma call_vcs_spec (c : Configuration) (r : Repository) :
  consistent plugins c r ->
  exists r',
    call_vcs caches_failure plugins r = (expected_vcs plugins c, r') /\
    consistent plugins c r' /\
    (vcs r = Pending \/ handler_bound plugins c r -> handler_bound plugins c r').
Proof.
  intros Hcons. pose proof Hcons as (Hc & Hh & Hp & Hv & Ho).
  unfold call_vcs, once_call. destruct (vcs r) as [|v|e] eqn:Hcell.
  - dependent_field Hcons. rewrite Hcell in Ev.
    destruct (Hcnt FVcs) as [Hr1 Hk1]; [discriminate|].
    destruct (Hcnt FProjects) as [Hr2 Hk2]; [discriminate|].
    destruct (Hcnt FHost) as [Hr3 Hk3]; [discriminate|].
    unfold expected_vcs in *.
    destruct (resolution plugins c) as [h|e] eqn:Hres; simpl.
    + destruct Hv as [Hok Hruns]. specialize (Hruns eq_refl).
      eexists. split; [rewrite Hc1; reflexivity|]. split.
      * unfold consistent, expected_vcs. simpl. rewrite Hc1, ?Hres.
        repeat split; auto; count_fields.
      * intros _ h' _. destruct (Hb1 h Hres) as (h0 & Hh0).
        exists h0. exact Hh0.
    + destruct Hv as [Hok _].
      destruct caches_failure; eexists; (split; [reflexivity|]); split;
        try (intros _ h' Hh'; discriminate);
        unfold consistent, expected_vcs; simpl; rewrite ?Ev, ?Hres; simpl;
        repeat split; auto; count_fields; try discriminate.
  - destruct Hv as (Hres & Hok & Hruns). rewrite Hres. exists r.
    split; [reflexivity|]. split; [assumption|].
    intros [H|H]; [discriminate|assumption].
  - destruct Hv as (Hres & Hok). rewrite Hres. exists r.
    split; [reflexivity|]. split; [assumption|].
    intros [H|H]; [discriminate|assumption].
Qed.

Lemma call_host_spec (c : Configuration) (r : Repository) :
  consistent plugins c r ->
  exists r',
    call_host caches_failure plugins r = (expected_host plugins c, r') /\
    consistent plugins c r' /\
    (host r = Pending \/ handler_bound plugins c r -> handler_bound plugins c r').
Proof.
  intros Hcons. pose proof Hcons as (Hc & Hh & Hp & Hv & Ho).
  unfold call_host, once_call. destruct (host r) as [|v|e] eqn:Hcell.
  - dependent_field Hcons. rewrite Hcell in Eo.
    destruct (Hcnt FVcs) as [Hr1 Hk1]; [discriminate|].
    destruct (Hcnt FProjects) as [Hr2 Hk2]; [discriminate|].
    destruct (Hcnt FHost) as [Hr3 Hk3]; [discriminate|].
    unfold expected_host in *.
    destruct (resolution plugins c) as [h|e] eqn:Hres; simpl.
    + destruct (get_repository_host h) as [method|] eqn:Hattr; unfold raise; simpl.
      * destruct Ho as [Hok Hruns]. specialize (Hruns eq_refl).
        eexists. split; [rewrite Hc1; reflexivity|]. split.
        -- unfold consistent, expected_host. simpl. rewrite Hc1, ?Hres, ?Hattr.
           repeat split; auto; count_fields.
        -- intros _ h' _. destruct (Hb1 h Hres) as (h0 & Hh0).
           exists h0. exact Hh0.
      * destruct Ho as [Hok _].
        destruct caches_failure; eexists; (split; [reflexivity|]); split;
          try (intros _ h' _; destruct (Hb1 h Hres) as (h0 & Hh0);
               exists h0; exact Hh0);
          unfold consistent, expected_host; simpl; rewrite ?Eo, ?Hres, ?Hattr; simpl;
          repeat split; auto; count_fields; try discriminate.
    + destruct Ho as [Hok _].
      destruct caches_failure; eexists; (split; [reflexivity|]); split;
        try (intros _ h' Hh'; discriminate);
        unfold consistent, expected_host; simpl; rewrite ?Eo, ?Hres; simpl;
        repeat split; auto; count_fields; try discriminate.
  - destruct Ho as (Hres & Hok & Hruns). rewrite Hres. exists r.
    split; [reflexivity|]. split; [assumption|].
    intros [H|H]; [discriminate|assumption].
  - destruct Ho as (Hres & Hok). rewrite Hres. exists r.
    split; [reflexivity|]. split; [assumption|].
    intros [H|H]; [discriminate|assumption].
Qed.

Lemma call_projects_spec (c : Configuration) (r : Repository) :
  consistent plugins c r ->
  exists r',
    call_projects caches_failure plugins r = (ordering plugins c, r') /\
    consistent plugins c r' /\
    (projects r = Pending \/ handler_bound plugins c r -> handler_bound plugins c r').
Proof.
  intros Hcons. pose proof Hcons as (Hc & Hh & Hp & Hv & Ho).
  unfold call_projects, once_call. destruct (projects r) as [|v|e] eqn:Hcell.
  - dependent_field Hcons. rewrite Hcell in Ep.
    destruct (Hcnt FVcs) as [Hr1 Hk1]; [discriminate|].
    destruct (Hcnt FProjects) as [Hr2 Hk2]; [discriminate|].
    destruct (Hcnt FHost) as [Hr3 Hk3]; [discriminate|].
    unfold ordering in *.
    destruct (resolution plugins c) as [h|e] eqn:Hres; simpl.
    + rewrite Hc1.
      destruct (order_projects (project_handler plugins) (get_projects h c))
        as [ps|e] eqn:Hord; simpl.
      * destruct Hp as [Hok Hruns]. specialize (Hruns eq_refl).
        eexists. split; [reflexivity|]. split.
        -- unfold consistent, ordering. simpl. rewrite ?Hres, ?Hord.
           repeat split; auto; count_fields.
        -- intros _ h' _. destruct (Hb1 h Hres) as (h0 & Hh0).
           exists h0. exact Hh0.
      * destruct Hp as [Hok _].
        destruct caches_failure; eexists; (split; [reflexivity|]); split;
          try (intros _ h' _; destruct (Hb1 h Hres) as (h0 & Hh0);
               exists h0; exact Hh0);
          unfold consistent, ordering; simpl; rewrite ?Ep, ?Hres, ?Hord; simpl;
          repeat split; auto; count_fields; try discriminate.
    + destruct Hp as [Hok _].
      destruct caches_failure; eexists; (split; [reflexivity|]); split;
        try (intros _ h' Hh'; discriminate);
        unfold consistent, ordering; simpl; rewrite ?Ep, ?Hres; simpl;
        repeat split; auto; count_fields; try discriminate.
  - destruct Hp as (Hres & Hok & Hruns). rewrite Hres. exists r.
    split; [reflexivity|]. split; [assumption|].
    intros [H|H]; [discriminate|assumption].
  - destruct Hp as (Hres & Hok). rewrite Hres. exists r.
    split; [reflexivity|]. split; [assumption|].
    intros [H|H]; [discriminate|assumption].
Qed.

Lemma fresh_consistent (c : Configuration) :
  consistent plugins c (Repository_init c).
Proof. unfold consistent. simpl. repeat split; reflexivity. Qed.

(** One access: the caller sees what a fresh instance would show, and the
    handler is bound afterwards when resolution succeeds. *)
Lemma perform_spec (c : Configuration) (r : Repository) (a : access) :
  consistent plugins c r ->
  (projects r = Pending /\ vcs r = Pending /\ host r = Pending) \/
  handler_bound plugins c r ->
  exists r',
    perform caches_failure plugins a r = (expected plugins c a, r') /\
    consistent plugins c r' /\ handler_bound plugins c r'.
Proof.
  intros Hcons Hpre. destruct a; unfold perform, load, bind, ret, expected.
  - destruct (call_handler_spec Hcons) as (r' & Hcall & Hcons' & Hb & _).
    rewrite Hcall. exists r'.
    destruct (resolution plugins c); auto.
  - destruct (call_projects_spec Hcons) as (r' & Hcall & Hcons' & Hb).
    rewrite Hcall. exists r'.
    destruct (ordering plugins c); (split; [reflexivity|]); split; auto;
      apply Hb; tauto.
  - destruct (call_vcs_spec Hcons) as (r' & Hcall & Hcons' & Hb).
    rewrite Hcall. exists r'.
    destruct (expected_vcs plugins c); (split; [reflexivity|]); split; auto;
      apply Hb; tauto.
  - destruct (call_host_spec Hcons) as (r' & Hcall & Hcons' & Hb).
    rewrite Hcall. exists r'.
    destruct (expected_host plugins c); (split; [reflexivity|]); split; auto;
      apply Hb; tauto.
Qed.

Lemma perform_fresh (c : Configuration) (a : access) :
  fst (perform caches_failure plugins a (Repository_init c)) = expected plugins c a.
Proof.
  destruct (@perform_spec c (Repository_init c) a) as (r' & Hp & _).
  - apply fresh_consistent.
  - left. simpl. auto.
  - now rewrite Hp.
Qed.

(** A sequence of accesses on one instance. *)
Lemma perform_all_spec (c : Configuration) (l : list access) :
  forall r,
    consistent plugins c r ->
    (projects r = Pending /\ vcs r = Pending /\ host r = Pending) \/
    handler_bound plugins c r ->
    exists r',
      perform_all caches_failure plugins l r = (map (expected plugins c) l, r') /\
      consistent plugins c r' /\
      (l <> [] -> handler_bound plugins c r').
Proof.
  induction l as [|a l IH]; intros r Hcons Hpre; simpl.
  - exists r. split; [reflexivity|]. split; [assumption|].
    intros H. now destruct H.
  - destruct (perform_spec a Hcons Hpre) as (r1 & Hp & Hcons1 & Hb1).
    rewrite Hp. destruct (IH r1 Hcons1 (or_intror Hb1)) as (r' & Hall & Hcons' & Hb').
    rewrite Hall. exists r'. split; [reflexivity|]. split; [assumption|].
    intros _. destruct l as [|a' l'].
    + simpl in Hall. inversion Hall; subst. assumption.
    + apply Hb'. discriminate.
Qed.



End RepositoryFacts.

(** ** Handler resolution *)

Section Resolution.

Variable caches_failure : bool.
Variable plugins : Plugins.

Lemma resolution_eq (c : Configuration) :
  resolution plugins c =
  match handler_name c with
  | Raise e => Raise e
  | Ok None =>
      if matches_repository (DefaultRepositoryHandler plugins) c
      then Ok (DefaultRepositoryHandler plugins)
      else Raise (NotASlamRepository (directory c))
  | Ok (Some (TString s)) =>
      match load_entrypoint plugins s with
      | None => Raise (NoSuchEntrypointError s)
      | Some handler =>
          if matches_repository handler c then Ok handler
          else Raise (AssertionError (MatchesRepository (directory c)))
      end
  | Ok (Some v) => Raise (AssertionError (IsInstanceStr v))
  end.
Proof.
  unfold resolution, _get_repository_handler, bind, self_config, lift, raise, ret.
  simpl. destruct (handler_name c) as [[v|]|e]; simpl; try reflexivity.
  - destruct v; try reflexivity.
    destruct (load_entrypoint plugins s); [|reflexivity].
    now destruct (matches_repository r c).
  - now destruct (matches_repository (DefaultRepositoryHandler plugins) c).
Qed.

Lemma expected_raise (c : Configuration) (e : exn) (a : access) :
  resolution plugins c = Raise e -> expected plugins c a = Raise e.
Proof.
  intros H. destruct a; unfold expected, ordering, expected_vcs, expected_host;
    now rewrite H.
Qed.

(** C4: when [repository.handler] is absent from the raw configuration
    (the lookup [raw_config().get('repository', {}).get('handler')] gives
    [None]) and the default handler does not match the repository, [load()]
    and the first access of any lazy field raise [NotASlamRepository]. *)
Theorem default_handler_mismatch (c : Configuration) (a : access) :
  handler_name c = Ok None ->
  matches_repository (DefaultRepositoryHandler plugins) c = false ->
  fst (perform caches_failure plugins a (Repository_init c))
  = Raise (NotASlamRepository (directory c)).
Proof.
  intros Hname Hmatch. rewrite perform_fresh. apply expected_raise.
  now rewrite resolution_eq, Hname, Hmatch.
Qed.

(** C5: when an explicit handler name is configured, the entry point
    resolves to a handler and that handler does not match the repository,
    handler resolution fails the assertion on [matches_repository]; it does
    not raise [NotASlamRepository], whatever the default handler would have
    answered. *)
Theorem explicit_handler_mismatch (c : Configuration) (name : string)
    (handler : RepositoryHandlerPlugin) (a : access) :
  handler_name c = Ok (Some (TString name)) ->
  load_entrypoint plugins name = Some handler ->
  matches_repository handler c = false ->
  fst (perform caches_failure plugins a (Repository_init c))
  = Raise (AssertionError (MatchesRepository (directory c))) /\
  forall dir, fst (perform caches_failure plugins a (Repository_init c))
              <> Raise (NotASlamRepository dir).
Proof.
  intros Hname Hload Hmatch.
  assert (H : fst (perform caches_failure plugins a (Repository_init c))
              = Raise (AssertionError (MatchesRepository (directory c)))).
  { rewrite perform_fresh. apply expected_raise.
    now rewrite resolution_eq, Hname, Hload, Hmatch. }
  split; [exact H|]. intros dir. rewrite H. discriminate.
Qed.

(** C10: a [repository.handler] value is present and not a string exactly
    when handler resolution fails the [isinstance] assertion; so a value
    that is a string, or no value, never fails that assertion. *)
Theorem non_string_handler_name (c : Configuration) (configured : option Toml)
    (a : access) :
  handler_name c = Ok configured ->
  (exists v, configured = Some v /\ forall s, v <> TString s) <->
  (exists v, fst (perform caches_failure plugins a (Repository_init c))
             = Raise (AssertionError (IsInstanceStr v))).
Proof.
  intros Hname. split.
  - intros (v & -> & Hv). exists v. rewrite perform_fresh.
    apply expected_raise. rewrite resolution_eq, Hname.
    destruct v; try reflexivity. now destruct (Hv s).
  - intros (v & Hrun). rewrite perform_fresh in Hrun.
    assert (Hres : resolution plugins c = Raise (AssertionError (IsInstanceStr v))).
    { destruct (resolution plugins c) as [h|e] eqn:E.
      - destruct a; unfold expected, ordering, expected_vcs, expected_host in Hrun;
          rewrite E in Hrun; try discriminate.
        + destruct (order_projects (project_handler plugins) (get_projects h c))
            as [ps|e] eqn:Hord; [discriminate|].
          unfold order_projects in Hord.
          destruct (topological_sort Project_eq_dec id
                      (build_graph (project_handler plugins)
                         (sorted_by_id (get_projects h c)))); [discriminate|].
          inversion Hord; subst. discriminate.
        + destruct (get_repository_host h); discriminate.
      - rewrite (expected_raise c a E) in Hrun. congruence. }
    rewrite resolution_eq, Hname in Hres.
    destruct configured as [w|].
    + exists w. split; [reflexivity|]. intros s ->.
      destruct (load_entrypoint plugins s) as [h|]; [|discriminate].
      destruct (matches_repository h c); discriminate.
    + destruct (matches_repository (DefaultRepositoryHandler plugins) c);
        discriminate.
Qed.

End Resolution.

Lemma default_handler_mismatch_witness :
  handler_name Sample.plain = Ok None /\
  fst (perform false Sample.unmatched Load (Repository_init Sample.plain))
  = Raise (NotASlamRepository "/repo").
Proof.
  split; [reflexivity|].
  apply (@default_handler_mismatch false Sample.unmatched Sample.plain Load);
    reflexivity.
Defined.

Lemma explicit_handler_mismatch_witness :
  fst (perform false Sample.unmatched GetProjects
         (Repository_init (Sample.configured (TString "custom"))))
  = Raise (AssertionError (MatchesRepository "/repo")) /\
  forall dir,
    fst (perform false Sample.unmatched GetProjects
           (Repository_init (Sample.configured (TString "custom"))))
    <> Raise (NotASlamRepository dir).
Proof.
  apply (@explicit_handler_mismatch false Sample.unmatched
           (Sample.configured (TString "custom")) "custom"
           (Sample.fixed false []) GetProjects); reflexivity.
Defined.

Lemma non_string_handler_name_witness :
  (exists v, Some (TInteger 5) = Some v /\ forall s, v <> TString s) <->
  (exists v, fst (perform true Sample.unmatched Load
                    (Repository_init (Sample.configured (TInteger 5))))
             = Raise (AssertionError (IsInstanceStr v))).
Proof.
  apply (@non_string_handler_name true Sample.unmatched
           (Sample.configured (TInteger 5)) (Some (TInteger 5)) Load).
  reflexivity.
Defined.

(** ** The ordered project list *)

Section Ordering.

Variable caches_failure : bool.
Variable plugins : Plugins.

Lemma call_projects_fresh (c : Configuration) :
  fst (call_projects caches_failure plugins (Repository_init c))
  = ordering plugins c.
Proof.
  destruct (call_projects_spec caches_failure (fresh_consistent plugins c))
    as (r' & Hcall & _).
  now rewrite Hcall.
Qed.

Lemma interdependency_candidate (ph : ProjectHandlerPlugin) (raw : list Project)
    (q p : Project) :
  clos_trans Project (interdependency ph raw) q p -> In p raw.
Proof.
  intros H. apply clos_trans_tn1 in H. destruct H as [p [Hp _]|p z [Hz _] _]; assumption.
Qed.

Lemma clos_trans_iff (A : Type) (R S : A -> A -> Prop) (x y : A) :
  (forall a b, R a b <-> S a b) -> clos_trans A R x y -> clos_trans A S x y.
Proof.
  intros H. apply clos_trans_mono. intros a b. apply H.
Qed.

Lemma smallest_first_cut (K : Type) (g : DiGraph K) (key : K -> string)
    (rest : list K) :
  forall pre, smallest_first g key pre rest ->
    forall l1 x l2, rest = l1 ++ x :: l2 ->
      forall y, In y (nodes g) -> ~ In y (pre ++ l1) ->
        (forall a, edge g a y -> In a (pre ++ l1)) ->
        str_le (key x) (key y).
Proof.
  induction rest as [|z rest IH]; intros pre Hsf l1 x l2 Hcut.
  - destruct l1; discriminate.
  - destruct Hsf as [Hz Hrest]. destruct l1 as [|z' l1]; simpl in Hcut.
    + inversion Hcut; subst. rewrite app_nil_r. exact Hz.
    + inversion Hcut; subst. intros y Hy Hn Hpre.
      apply (IH (pre ++ [z']) Hrest l1 x l2 eq_refl y Hy);
        rewrite <- app_assoc; assumption.
Qed.

Lemma ordering_resolved (c : Configuration) (handler : RepositoryHandlerPlugin) :
  resolution plugins c = Ok handler ->
  fst (call_projects caches_failure plugins (Repository_init c))
  = order_projects (project_handler plugins) (get_projects handler c).
Proof. intros H. rewrite call_projects_fresh. unfold ordering. now rewrite H. Qed.

Lemma order_projects_sorted (ph : ProjectHandlerPlugin) (raw order : list Project) :
  order_projects ph raw = Ok order ->
  topological_sort Project_eq_dec id (build_graph ph (sorted_by_id raw))
  = Sorted order.
Proof.
  unfold order_projects.
  destruct (topological_sort Project_eq_dec id (build_graph ph (sorted_by_id raw)));
    intros H; inversion H; reflexivity.
Qed.

(** C1: when the interdependencies of the projects that the handler yields
    are acyclic, [projects()] returns an order that contains every
    candidate exactly once and nothing else, and in which [q] comes
    strictly before [p] whenever [q] is among the interdependencies of
    [p]. *)
Theorem projects_topological_order (c : Configuration)
    (handler : RepositoryHandlerPlugin) :
  resolution plugins c = Ok handler ->
  acyclic (interdependency (project_handler plugins) (get_projects handler c)) ->
  exists order,
    fst (call_projects caches_failure plugins (Repository_init c)) = Ok order /\
    (forall p, In p (get_projects handler c) ->
               count_occ Project_eq_dec order p = 1) /\
    (forall p, In p order -> In p (get_projects handler c)) /\
    (forall q p,
       interdependency (project_handler plugins) (get_projects handler c) q p ->
       precedes order q p).
Proof.
  intros Hres Hacyclic. rewrite (ordering_resolved c Hres).
  set (ph := project_handler plugins) in *. set (raw := get_projects handler c) in *.
  set (g := build_graph ph (sorted_by_id raw)).
  assert (Hg : acyclic (edge g)).
  { intros p Hp. apply (Hacyclic p).
    apply (@clos_trans_iff Project (edge g) (interdependency ph raw)); [|exact Hp].
    intros q' p'. apply edge_interdependency. }
  destruct (@topological_sort_acyclic Project Project_eq_dec id g
              (build_graph_well_formed ph (sorted_by_id raw)) Hg) as (order & Hsort).
  exists order. unfold order_projects. fold g. rewrite Hsort.
  destruct (@topological_sort_sorted Project Project_eq_dec id g order Hsort)
    as (Hnd & Hall & Honly & Hprec & _).
  split; [reflexivity|]. split; [|split].
  - intros p Hp. apply NoDup_count_occ'; [assumption|].
    apply Hall. now apply nodes_candidates.
  - intros p Hp. apply (nodes_candidates ph raw p). now apply Honly.
  - intros q p Hqp. apply Hprec.
    + apply nodes_candidates. exact (proj1 Hqp).
    + now apply edge_interdependency.
Qed.

(** C3: when the interdependencies contain a cycle through [x],
    [projects()] returns no order: it fails with the circular-dependency
    error, and [x] is among the projects that the error reports. *)
Theorem projects_circular_dependency (c : Configuration)
    (handler : RepositoryHandlerPlugin) (x : Project) :
  resolution plugins c = Ok handler ->
  clos_trans Project
    (interdependency (project_handler plugins) (get_projects handler c)) x x ->
  exists unreached,
    fst (call_projects caches_failure plugins (Repository_init c))
    = Raise (CircularDependency unreached) /\
    In x unreached.
Proof.
  intros Hres Hcycle. rewrite (ordering_resolved c Hres).
  set (ph := project_handler plugins) in *. set (raw := get_projects handler c) in *.
  set (g := build_graph ph (sorted_by_id raw)).
  destruct (@topological_sort_cycle Project Project_eq_dec id g x)
    as (unreached & Hsort & Hx).
  - apply nodes_candidates. exact (interdependency_candidate Hcycle).
  - apply (@clos_trans_iff Project (interdependency ph raw) (edge g)); [|exact Hcycle].
    intros q' p'. symmetry. apply edge_interdependency.
  - exists unreached. unfold order_projects. fold g. rewrite Hsort. auto.
Qed.

(** In a list without repetition there is one way to cut at [x]. *)
Lemma cut_unique (A : Type) (x : A) (pre post l1 l3 : list A) :
  ~ In x pre -> ~ In x l1 -> pre ++ x :: post = l1 ++ x :: l3 -> pre = l1.
Proof.
  revert l1. induction pre as [|a pre IH]; intros [|b l1] Hp Hl H; simpl in *.
  - reflexivity.
  - inversion H; subst. tauto.
  - inversion H; subst. tauto.
  - inversion H; subst. f_equal. apply IH; tauto.
Qed.

Lemma precedes_cut (A : Type) (order pre post : list A) (q x : A) :
  NoDup order -> order = pre ++ x :: post -> precedes order q x -> In q pre.
Proof.
  intros Hnd Hcut (l1 & l2 & l3 & Hq).
  assert (Hpre : pre = l1 ++ q :: l2).
  { apply (@cut_unique A x pre post (l1 ++ q :: l2) l3).
    - rewrite Hcut in Hnd. apply NoDup_remove_2 in Hnd.
      intros H. apply Hnd, in_or_app. now left.
    - rewrite Hq in Hnd.
      replace (l1 ++ q :: l2 ++ x :: l3) with ((l1 ++ q :: l2) ++ x :: l3) in Hnd
        by now rewrite <- app_assoc.
      apply NoDup_remove_2 in Hnd.
      intros H. apply Hnd, in_or_app. now left.
    - rewrite <- Hcut, Hq. now rewrite <- app_assoc. }
  rewrite Hpre. apply in_or_app. right. now left.
Qed.

Lemma projects_tie_break (c : Configuration) (handler : RepositoryHandlerPlugin)
    (order : list Project) :
  resolution plugins c = Ok handler ->
  fst (call_projects caches_failure plugins (Repository_init c)) = Ok order ->
  tie_break_law (project_handler plugins) (get_projects handler c) order.
Proof.
  intros Hres Hrun. rewrite (ordering_resolved c Hres) in Hrun.
  apply order_projects_sorted in Hrun.
  destruct (@topological_sort_sorted Project Project_eq_dec id _ order Hrun)
    as (Hnd & _ & Honly & Hprec & Hsf).
  intros pre x post Hcut. split.
  - split; [|split].
    + apply (nodes_candidates (project_handler plugins) (get_projects handler c) x).
      apply Honly. rewrite Hcut. apply in_or_app. right. now left.
    + rewrite Hcut in Hnd. apply NoDup_remove_2 in Hnd.
      intros H. apply Hnd, in_or_app. now left.
    + intros q Hq. apply (@precedes_cut Project order pre post q x Hnd Hcut).
      apply Hprec.
      * apply nodes_candidates. exact (proj1 Hq).
      * now apply edge_interdependency.
  - intros y (Hy & Hn & Hdeps).
    apply (@smallest_first_cut Project _ id order [] Hsf pre x post Hcut y).
    + now apply nodes_candidates.
    + exact Hn.
    + intros q Hq. apply Hdeps. now apply edge_interdependency.
Qed.

End Ordering.

(** C2: in the order returned by [projects()], wherever the order is cut,
    the project emitted next is eligible (a candidate that is not yet
    emitted and whose interdependencies all are) and has the smallest id
    among the projects eligible at that moment; and for the candidates
    [b] (no dependencies), [a] (no dependencies) and [c] (depending on
    [a]) the order returned is [a], [b], [c]. *)
Theorem projects_smallest_id_first :
  (forall caches_failure plugins c handler order,
     resolution plugins c = Ok handler ->
     fst (call_projects caches_failure plugins (Repository_init c)) = Ok order ->
     tie_break_law (project_handler plugins) (get_projects handler c) order) /\
  (forall caches_failure,
     get_projects (DefaultRepositoryHandler Sample.tie_break) Sample.plain
     = [Sample.b; Sample.a; Sample.c] /\
     fst (call_projects caches_failure Sample.tie_break (Repository_init Sample.plain))
     = Ok [Sample.a; Sample.b; Sample.c]).
Proof.
  split.
  - intros caches_failure plugins c handler order.
    apply projects_tie_break.
  - intros caches_failure. split; [reflexivity|].
    rewrite call_projects_fresh. vm_compute. reflexivity.
Qed.

Lemma projects_smallest_id_first_witness :
  tie_break_law (project_handler Sample.tie_break)
    [Sample.b; Sample.a; Sample.c] [Sample.a; Sample.b; Sample.c].
Proof.
  apply (proj1 projects_smallest_id_first false Sample.tie_break Sample.plain
           (Sample.fixed true [Sample.b; Sample.a; Sample.c])).
  - reflexivity.
  - rewrite call_projects_fresh. vm_compute. reflexivity.
Defined.

(** The law is about eligibility as much as about ids: with [a] depending
    on [b], the candidates sorted by id do not meet it. *)
Lemma tie_break_law_needs_eligibility :
  ~ tie_break_law Sample.a_needs_b [Sample.a; Sample.b]
      (sorted_by_id [Sample.a; Sample.b]).
Proof.
  intros H. destruct (H [] Sample.a [Sample.b] eq_refl) as [(_ & _ & Hdeps) _].
  apply (Hdeps Sample.b). split; [simpl; auto|]. vm_compute. auto.
Qed.

Lemma rank_acyclic (K : Type) (R : K -> K -> Prop) (rank : K -> nat) :
  (forall a b, R a b -> rank a < rank b) -> acyclic R.
Proof.
  intros Hrank x Hx.
  assert (H : forall a b, clos_trans K R a b -> rank a < rank b).
  { intros a b Hab. induction Hab as [a b H|a b c _ IH1 _ IH2]; [auto|lia]. }
  specialize (H x x Hx). lia.
Qed.

Lemma projects_topological_order_witness :
  exists order,
    fst (call_projects false Sample.tie_break (Repository_init Sample.plain))
    = Ok order /\
    (forall p, In p [Sample.b; Sample.a; Sample.c] ->
               count_occ Project_eq_dec order p = 1) /\
    (forall p, In p order -> In p [Sample.b; Sample.a; Sample.c]) /\
    (forall q p,
       interdependency (project_handler Sample.tie_break)
         [Sample.b; Sample.a; Sample.c] q p ->
       precedes order q p).
Proof.
  apply (@projects_topological_order false Sample.tie_break Sample.plain
           (Sample.fixed true [Sample.b; Sample.a; Sample.c])).
  - reflexivity.
  - apply (@rank_acyclic Project _ obj). intros q p [Hp Hq].
    simpl in Hp. destruct Hp as [<-|[<-|[<-|[]]]]; vm_compute in Hq;
      try contradiction.
    destruct Hq as [<-|[]]. simpl. lia.
Defined.

Lemma projects_circular_dependency_witness :
  exists unreached,
    fst (call_projects false Sample.cyclic (Repository_init Sample.plain))
    = Raise (CircularDependency unreached) /\
    In Sample.x unreached.
Proof.
  apply (@projects_circular_dependency false Sample.cyclic Sample.plain
           (Sample.fixed true [Sample.x; Sample.y]) Sample.x).
  - reflexivity.
  - apply t_trans with Sample.y; apply t_step; split; vm_compute; tauto.
Defined.

(** ** Dangling dependencies *)

Section Dangling.

Variable ph : ProjectHandlerPlugin.
Variable p0 : Project.
Variable d : string.

Lemma get_interdependencies_dangling (p : Project) (cs : list Project) :
  (forall q, In q cs -> get_dist_name ph q <> Some d) ->
  get_interdependencies (declare_dependency ph p0 d) p cs
  = get_interdependencies ph p cs.
Proof.
  intros Hd. unfold get_interdependencies. apply filter_ext_in.
  intros q Hq. f_equal. simpl.
  destruct (get_dist_name ph q) as [n|] eqn:E; [|reflexivity].
  destruct (Project_eq_dec p p0); [|reflexivity]. simpl.
  destruct (String.eqb_spec n d) as [->|Hne]; [|reflexivity].
  destruct (Hd q Hq E).
Qed.

Lemma build_graph_dangling (ps : list Project) :
  (forall q, In q ps -> get_dist_name ph q <> Some d) ->
  build_graph (declare_dependency ph p0 d) ps = build_graph ph ps.
Proof.
  intros Hd. unfold build_graph. generalize (@empty_graph Project).
  generalize ps at 2 4. intros l. induction l as [|p l IH]; intros g; simpl.
  - reflexivity.
  - rewrite IH. unfold add_project at 2 4.
    now rewrite get_interdependencies_dangling.
Qed.

End Dangling.

(** C8: when a project declares a dependency on a distribution name [d]
    that matches none of the candidates, that dependency is ignored: no
    edge of the graph starts at a project named [d], the graph and the
    outcome of [projects()] are those obtained without the declaration. *)
Theorem dangling_dependency_ignored (caches_failure : bool) (plugins : Plugins)
    (c : Configuration) (handler : RepositoryHandlerPlugin)
    (p0 : Project) (d : string) :
  resolution plugins c = Ok handler ->
  (forall q, In q (get_projects handler c) ->
             get_dist_name (project_handler plugins) q <> Some d) ->
  let declared := declare_dependency (project_handler plugins) p0 d in
  let candidates := sorted_by_id (get_projects handler c) in
  (forall q p, edge (build_graph declared candidates) q p ->
               get_dist_name declared q <> Some d) /\
  build_graph declared candidates
  = build_graph (project_handler plugins) candidates /\
  fst (call_projects caches_failure (with_project_handler plugins declared)
         (Repository_init c))
  = fst (call_projects caches_failure plugins (Repository_init c)).
Proof.
  intros Hres Hd declared candidates.
  assert (Hd' : forall q, In q candidates ->
                          get_dist_name (project_handler plugins) q <> Some d).
  { intros q Hq. apply Hd. now apply sorted_by_id_In. }
  assert (Hg : build_graph declared candidates
               = build_graph (project_handler plugins) candidates)
    by now apply build_graph_dangling.
  split; [|split].
  - intros q p Hqp. rewrite Hg in Hqp.
    destruct (build_graph_well_formed (project_handler plugins) candidates)
      as [_ Hwf].
    destruct (Hwf q p Hqp) as [Hq _].
    apply Hd'. now apply (build_graph_spec (project_handler plugins) candidates).
  - exact Hg.
  - rewrite (@ordering_resolved caches_failure plugins c handler Hres).
    assert (Hres' : resolution (with_project_handler plugins declared) c = Ok handler)
      by exact Hres.
    rewrite (@ordering_resolved caches_failure _ c handler Hres'). simpl.
    unfold order_projects. fold candidates. now rewrite Hg.
Qed.

Lemma dangling_dependency_ignored_witness :
  fst (call_projects false
         (with_project_handler Sample.tie_break
            (declare_dependency (project_handler Sample.tie_break) Sample.c "zzz"))
         (Repository_init Sample.plain))
  = fst (call_projects false Sample.tie_break (Repository_init Sample.plain)).
Proof.
  refine (proj2 (proj2 (@dangling_dependency_ignored false Sample.tie_break
           Sample.plain (Sample.fixed true [Sample.b; Sample.a; Sample.c])
           Sample.c "zzz" _ _))).
  - reflexivity.
  - intros q Hq. simpl in Hq.
    destruct Hq as [<-|[<-|[<-|[]]]]; discriminate.
Defined.

(** ** [is_monorepo] *)

Section Monorepo.

Variable caches_failure : bool.
Variable plugins : Plugins.

Lemma call_handler_config (r : Repository) :
  config (snd (call_handler caches_failure plugins r)) = config r.
Proof.
  unfold call_handler, once_call. destruct (_handler r); try reflexivity.
  rewrite get_repository_handler_pure.
  destruct (resolution plugins (config r)); [reflexivity|].
  now destruct caches_failure.
Qed.

(** Once [self.projects()] has returned a list, the list is cached. *)
Lemma call_projects_cached (r r' : Repository) (ps : list Project) :
  call_projects caches_failure plugins r = (Ok ps, r') ->
  projects r' = Cached ps /\ config r' = config r.
Proof.
  unfold call_projects, once_call. destruct (projects r) as [|a|e] eqn:Hcell.
  - unfold _get_projects, bind, self_config, lift.
    pose proof (call_handler_config r) as Hcfg.
    destruct (call_handler caches_failure plugins r) as [[h|e] r0]; simpl in Hcfg.
    + destruct (order_projects (project_handler plugins) (get_projects h (config r0)));
        simpl; intros H.
      * inversion H; subst. simpl. auto.
      * destruct caches_failure; discriminate.
    + simpl. destruct caches_failure; discriminate.
  - intros H. inversion H; subst. auto.
  - discriminate.
Qed.

(** C6: [is_monorepo] is [True] exactly when the list that [projects()]
    returns has more than one element, or has exactly one element whose
    directory differs from the directory of the repository. *)
Theorem is_monorepo_iff (r r' : Repository) (ps : list Project) :
  call_projects caches_failure plugins r = (Ok ps, r') ->
  exists answer,
    fst (is_monorepo caches_failure plugins r) = Ok answer /\
    (answer = true <->
     1 < List.length ps \/
     exists p, ps = [p] /\ project_directory p <> directory (config r)).
Proof.
  intros Hcall. destruct (@call_projects_cached r r' ps Hcall) as [Hcell Hcfg].
  assert (Hagain : call_projects caches_failure plugins r' = (Ok ps, r')).
  { unfold call_projects, once_call. now rewrite Hcell. }
  unfold is_monorepo, bind, self_config, ret. rewrite Hcall.
  destruct (Nat.ltb 1 (List.length ps)) eqn:Hlen.
  - exists true. apply Nat.ltb_lt in Hlen. simpl. tauto.
  - apply Nat.ltb_ge in Hlen. rewrite Hagain.
    destruct (Nat.eqb (List.length ps) 1) eqn:Hone.
    + apply Nat.eqb_eq in Hone. rewrite Hagain.
      destruct ps as [|p [|p' ps]]; try discriminate. rewrite Hcfg.
      destruct (String.eqb_spec (project_directory p) (directory (config r)))
        as [Heq|Hne]; simpl.
      * exists false. split; [reflexivity|]. split; [discriminate|].
        intros [H|(q & Hq & Hd)]; [simpl in H; lia|].
        inversion Hq; subst. contradiction.
      * exists true. split; [reflexivity|]. split; [|reflexivity].
        intros _. right. exists p. auto.
    + apply Nat.eqb_neq in Hone. exists false. split; [reflexivity|].
      split; [discriminate|].
      intros [H|(q & -> & _)]; [lia|simpl in Hone; lia].
Qed.

End Monorepo.

Lemma is_monorepo_iff_witness :
  exists answer,
    fst (is_monorepo false Sample.tie_break (Repository_init Sample.plain))
    = Ok answer /\
    (answer = true <->
     1 < List.length [Sample.a; Sample.b; Sample.c] \/
     exists p, [Sample.a; Sample.b; Sample.c] = [p] /\
               project_directory p <> "/repo").
Proof.
  apply (@is_monorepo_iff false Sample.tie_break (Repository_init Sample.plain)
           (snd (call_projects false Sample.tie_break (Repository_init Sample.plain)))
           [Sample.a; Sample.b; Sample.c]).
  vm_compute. reflexivity.
Defined.

(** ** Single evaluation *)




(** ** Failed computations

    Whether a failed computation is run again on the next access is decided
    by [Once] alone: the two policies differ on a repository that no
    handler recognizes. *)
Lemma failed_resolution_runs :
  runs FHandler
    (snd (perform_all true Sample.unmatched [Load; Load]
            (Repository_init Sample.plain))) = 1 /\
  runs FHandler
    (snd (perform_all false Sample.unmatched [Load; Load]
            (Repository_init Sample.plain))) = 2.
Proof. split; reflexivity. Qed.

(** ** More on handler resolution *)

(** When handler resolution succeeds, the handler it returns matches the
    repository; it is the default handler when no name is configured, and
    otherwise the handler of the configured entry point. *)
Theorem resolved_handler_matches (plugins : Plugins) (c : Configuration)
    (handler : RepositoryHandlerPlugin) :
  resolution plugins c = Ok handler ->
  matches_repository handler c = true /\
  ((handler_name c = Ok None /\ handler = DefaultRepositoryHandler plugins) \/
   (exists s, handler_name c = Ok (Some (TString s)) /\
              load_entrypoint plugins s = Some handler)).
Proof.
  rewrite resolution_eq. destruct (handler_name c) as [[v|]|e]; [| |discriminate].
  - destruct v; try discriminate.
    destruct (load_entrypoint plugins s) as [h|] eqn:Hload; [|discriminate].
    destruct (matches_repository h c) eqn:Hm; [|discriminate].
    intros H. inversion H; subst. split; [assumption|]. right. eauto.
  - destruct (matches_repository (DefaultRepositoryHandler plugins) c) eqn:Hm;
      [|discriminate].
    intros H. inversion H; subst. split; [assumption|]. left. auto.
Qed.

Lemma resolved_handler_matches_witness :
  matches_repository (Sample.fixed true [Sample.b; Sample.a; Sample.c])
    Sample.plain = true.
Proof.
  refine (proj1 (@resolved_handler_matches Sample.tie_break Sample.plain
           (Sample.fixed true [Sample.b; Sample.a; Sample.c]) _)).
  reflexivity.
Defined.

(** A value under ['repository'] that is not a table makes handler
    resolution raise [AttributeError], whatever the handlers are. *)
Theorem repository_not_a_table (plugins : Plugins) (c : Configuration) (v : Toml) :
  dict_get "repository" (raw_config c) = Some v ->
  (forall t, v <> TTable t) ->
  resolution plugins c = Raise AttributeError.
Proof.
  intros Hget Hv. rewrite resolution_eq. unfold handler_name. rewrite Hget.
  destruct v; try reflexivity. now destruct (Hv items).
Qed.

Lemma repository_not_a_table_witness :
  resolution Sample.tie_break
    {| directory := "/repo"; raw_config := [("repository", TString "default")] |}
  = Raise AttributeError.
Proof.
  apply (@repository_not_a_table Sample.tie_break
           {| directory := "/repo"; raw_config := [("repository", TString "default")] |}
           (TString "default")).
  - reflexivity.
  - discriminate.
Defined.

(** With a value configured for [repository.handler], the default handler
    is never consulted: the outcome is the same for any default handler. *)
Theorem configured_ignores_default (plugins plugins' : Plugins)
    (c : Configuration) (v : Toml) :
  handler_name c = Ok (Some v) ->
  load_entrypoint plugins = load_entrypoint plugins' ->
  resolution plugins c = resolution plugins' c.
Proof.
  intros Hname Hload. rewrite !resolution_eq, Hname, Hload. reflexivity.
Qed.

Lemma configured_ignores_default_witness :
  resolution Sample.unmatched (Sample.configured (TString "custom"))
  = resolution
      {| DefaultRepositoryHandler := Sample.fixed true [];
         load_entrypoint := load_entrypoint Sample.unmatched;
         project_handler := project_handler Sample.unmatched |}
      (Sample.configured (TString "custom")).
Proof.
  apply (@configured_ignores_default Sample.unmatched _
           (Sample.configured (TString "custom")) (TString "custom"));
    reflexivity.
Defined.

(** With no value configured, the entry point registry is never
    consulted: the outcome depends on the default handler alone. *)
Theorem unconfigured_ignores_registry (plugins plugins' : Plugins)
    (c : Configuration) :
  handler_name c = Ok None ->
  DefaultRepositoryHandler plugins = DefaultRepositoryHandler plugins' ->
  resolution plugins c = resolution plugins' c.
Proof.
  intros Hname Hdefault. rewrite !resolution_eq, Hname, Hdefault. reflexivity.
Qed.

Lemma unconfigured_ignores_registry_witness :
  resolution Sample.unmatched Sample.plain
  = resolution
      {| DefaultRepositoryHandler := DefaultRepositoryHandler Sample.unmatched;
         load_entrypoint := fun _ => Some (Sample.fixed true []);
         project_handler := project_handler Sample.unmatched |}
      Sample.plain.
Proof.
  apply (@unconfigured_ignores_registry Sample.unmatched _ Sample.plain);
    reflexivity.
Defined.

(** ** The sort by id *)

Lemma insert_by_id_Permutation (x : Project) (l : list Project) :
  Permutation (x :: l) (insert_by_id x l).
Proof.
  induction l as [|y l IH]; simpl; [reflexivity|].
  destruct (String.ltb (id y) (id x)); [|reflexivity].
  rewrite perm_swap. now constructor.
Qed.

Lemma insert_by_id_sorted (x : Project) (l : list Project) :
  StronglySorted (fun p q => str_le (id p) (id q)) l ->
  StronglySorted (fun p q => str_le (id p) (id q)) (insert_by_id x l).
Proof.
  induction l as [|y l IH]; intros Hs; simpl.
  - constructor; constructor.
  - inversion Hs as [|? ? Hl Hy]; subst.
    destruct (String.ltb (id y) (id x)) eqn:E.
    + constructor; [now apply IH|].
      apply Forall_forall. intros z Hz. apply insert_by_id_In in Hz.
      destruct Hz as [->|Hz]; [now apply StrOrder.lt_le|].
      rewrite Forall_forall in Hy. now apply Hy.
    + constructor; [assumption|].
      apply StrOrder.ltb_nlt in E. constructor; [assumption|].
      rewrite Forall_forall in Hy |- *. intros z Hz.
      apply StrOrder.le_trans with (id y); auto.
Qed.

Lemma insert_by_id_stable (k : string) (x : Project) (l : list Project) :
  filter (fun p => String.eqb (id p) k) (insert_by_id x l)
  = filter (fun p => String.eqb (id p) k) (x :: l).
Proof.
  induction l as [|y l IH]; [reflexivity|]. simpl insert_by_id.
  destruct (String.ltb (id y) (id x)) eqn:E; [|reflexivity].
  simpl in *. rewrite IH.
  destruct (String.eqb_spec (id y) k) as [Hy|Hy];
    destruct (String.eqb_spec (id x) k) as [Hx|Hx]; try reflexivity.
  exfalso. rewrite Hy, Hx in E. apply StrOrder.ltb_lt in E.
  rewrite StrOrder.compare_refl in E. discriminate.
Qed.

(** [sorted(projects, key=lambda p: p.id)] keeps every project, puts the
    ids in ascending order, and keeps projects with the same id in the
    order in which the handler listed them. *)
Theorem sorted_by_id_spec (l : list Project) :
  Permutation l (sorted_by_id l) /\
  StronglySorted (fun p q => str_le (id p) (id q)) (sorted_by_id l) /\
  forall k, filter (fun p => String.eqb (id p) k) (sorted_by_id l)
            = filter (fun p => String.eqb (id p) k) l.
Proof.
  induction l as [|x l (IHp & IHs & IHk)]; simpl.
  - repeat split; constructor.
  - split; [|split].
    + rewrite <- insert_by_id_Permutation. now constructor.
    + now apply insert_by_id_sorted.
    + intros k. rewrite insert_by_id_stable. simpl. now rewrite IHk.
Qed.

Lemma same_id_same_project (l : list Project) (p q : Project) :
  NoDup (map id l) -> In p l -> In q l -> id p = id q -> p = q.
Proof.
  induction l as [|x l IH]; simpl; [tauto|].
  intros Hnd Hp Hq Heq. inversion Hnd as [|? ? Hx Hl]; subst.
  destruct Hp as [<-|Hp]; destruct Hq as [<-|Hq]; auto.
  - destruct Hx. rewrite Heq. now apply in_map.
  - destruct Hx. rewrite <- Heq. now apply in_map.
Qed.

Lemma sorted_unique (l1 : list Project) :
  forall l2,
    StronglySorted (fun p q => str_le (id p) (id q)) l1 ->
    StronglySorted (fun p q => str_le (id p) (id q)) l2 ->
    Permutation l1 l2 -> NoDup (map id l1) -> l1 = l2.
Proof.
  induction l1 as [|a t1 IH]; intros l2 H1 H2 Hperm Hnd.
  - apply Permutation_nil in Hperm. now subst.
  - destruct l2 as [|b t2].
    + apply Permutation_sym, Permutation_nil in Hperm. discriminate.
    + inversion H1 as [|? ? Ht1 Ha]; inversion H2 as [|? ? Ht2 Hb]; subst.
      rewrite Forall_forall in Ha, Hb.
      assert (Hab : a = b).
      { assert (Hb1 : In b (a :: t1)).
        { apply (Permutation_in b (Permutation_sym Hperm)). now left. }
        assert (Ha2 : In a (b :: t2)).
        { apply (Permutation_in a Hperm). now left. }
        apply (@same_id_same_project (a :: t1)); auto; [now left|].
        apply StrOrder.le_antisym.
        - destruct Hb1 as [->|Hb1]; [apply StrOrder.le_refl|now apply Ha].
        - destruct Ha2 as [->|Ha2]; [apply StrOrder.le_refl|now apply Hb]. }
      subst b. f_equal. apply IH; auto.
      * now apply Permutation_cons_inv in Hperm.
      * now inversion Hnd.
Qed.

(** When the ids are distinct, the order in which the handler lists the
    projects does not matter: the sorted candidates, and with them the
    outcome of the ordering, are the same for any rearrangement. *)
Theorem listing_order_irrelevant (ph : ProjectHandlerPlugin)
    (raw raw' : list Project) :
  Permutation raw raw' ->
  NoDup (map id raw) ->
  sorted_by_id raw = sorted_by_id raw' /\
  order_projects ph raw = order_projects ph raw'.
Proof.
  intros Hperm Hnd.
  assert (Heq : sorted_by_id raw = sorted_by_id raw').
  { destruct (sorted_by_id_spec raw) as (Hp & Hs & _).
    destruct (sorted_by_id_spec raw') as (Hp' & Hs' & _).
    apply sorted_unique; auto.
    - rewrite <- Hp, <- Hp'. exact Hperm.
    - apply (Permutation_NoDup (Permutation_map id Hp)). exact Hnd. }
  split; [exact Heq|]. unfold order_projects. now rewrite Heq.
Qed.

Lemma listing_order_irrelevant_witness :
  order_projects (project_handler Sample.tie_break) [Sample.b; Sample.a; Sample.c]
  = order_projects (project_handler Sample.tie_break) [Sample.c; Sample.b; Sample.a].
Proof.
  refine (proj2 (@listing_order_irrelevant (project_handler Sample.tie_break)
           [Sample.b; Sample.a; Sample.c] [Sample.c; Sample.b; Sample.a] _ _)).
  - apply Permutation_sym. apply (@perm_trans _ _ [Sample.b; Sample.c; Sample.a]).
    + apply perm_swap.
    + apply perm_skip. apply perm_swap.
  - repeat constructor; simpl; intuition discriminate.
Defined.

(** ** Strings: slices and first occurrences *)

Module StringFacts.

Local Open Scope string_scope.

Lemma append_nil_r (s : string) : s ++ "" = s.
Proof. induction s as [|c s IH]; simpl; [reflexivity|now rewrite IH]. Qed.

Lemma append_assoc (a b c : string) : (a ++ b) ++ c = a ++ (b ++ c).
Proof. induction a as [|x a IH]; simpl; [reflexivity|now rewrite IH]. Qed.

Lemma length_append (a b : string) :
  String.length (a ++ b) = String.length a + String.length b.
Proof. induction a as [|x a IH]; simpl; [reflexivity|now rewrite IH]. Qed.

Lemma substring_nil (n m : nat) : substring n m "" = "".
Proof. destruct n, m; reflexivity. Qed.

Lemma substring_zero (s : string) (n : nat) : substring n 0 s = "".
Proof.
  revert n. induction s as [|c s IH]; intros [|n]; simpl; auto.
Qed.

Lemma substring_length (s : string) :
  forall n m, String.length (substring n m s) = Nat.min m (String.length s - n).
Proof.
  induction s as [|c s IH]; intros n m.
  - rewrite substring_nil. simpl. now rewrite Nat.min_0_r.
  - destruct n as [|n]; destruct m as [|m]; simpl; auto.
    rewrite IH. now rewrite Nat.sub_0_r.
Qed.

Lemma substring_split (s : string) :
  forall n m1 m2,
    substring n (m1 + m2) s = substring n m1 s ++ substring (n + m1) m2 s.
Proof.
  induction s as [|c s IH]; intros n m1 m2.
  - now rewrite !substring_nil.
  - destruct n as [|n].
    + destruct m1 as [|m1]; simpl.
      * destruct m2; reflexivity.
      * now rewrite (IH 0 m1 m2).
    + simpl. apply IH.
Qed.

Lemma substring_beyond (s : string) :
  forall n m, String.length s <= n -> substring n m s = "".
Proof.
  induction s as [|c s IH]; intros n m Hn.
  - apply substring_nil.
  - destruct n as [|n]; simpl in *; [lia|]. apply IH. lia.
Qed.

Lemma substring_whole (s : string) :
  forall m, String.length s <= m -> substring 0 m s = s.
Proof.
  induction s as [|c s IH]; intros m Hm.
  - apply substring_nil.
  - destruct m as [|m]; simpl in *; [lia|]. rewrite IH; [reflexivity|lia].
Qed.

Lemma substring_clamp (s : string) (n m : nat) :
  String.length s - n <= m ->
  substring n m s = substring n (String.length s - n) s.
Proof.
  intros Hm.
  replace m with ((String.length s - n) + (m - (String.length s - n))) by lia.
  rewrite substring_split.
  rewrite (@substring_beyond s (n + (String.length s - n))); [|lia].
  now rewrite append_nil_r.
Qed.

Lemma substring_append_l (a b : string) :
  forall n m, n + m <= String.length a ->
    substring n m (a ++ b) = substring n m a.
Proof.
  induction a as [|x a IH]; intros n m Hnm; simpl in Hnm.
  - assert (m = 0) by lia. subst. now rewrite !substring_zero.
  - destruct n as [|n]; simpl.
    + destruct m as [|m]; [reflexivity|]. rewrite IH; [reflexivity|lia].
    + apply IH. lia.
Qed.

Lemma substring_append_r (a b : string) :
  forall n m, substring (String.length a + n) m (a ++ b) = substring n m b.
Proof.
  induction a as [|x a IH]; intros n m; simpl; auto.
Qed.

(** Cutting a string at [n], and cutting a tail once more. *)
Lemma cut (s : string) (n : nat) :
  s = substring 0 n s ++ Setuptools.slice_from s n.
Proof.
  unfold Setuptools.slice_from.
  destruct (Nat.le_gt_cases n (String.length s)) as [Hn|Hn].
  - pose proof (substring_split s 0 n (String.length s - n)) as H.
    simpl in H. rewrite <- H. symmetry. apply substring_whole. lia.
  - rewrite (@substring_beyond s n (String.length s - n)) by lia.
    rewrite append_nil_r. symmetry. apply substring_whole. lia.
Qed.

Lemma cut_tail (s : string) (n m : nat) :
  Setuptools.slice_from s n
  = substring n m s ++ Setuptools.slice_from s (n + m).
Proof.
  unfold Setuptools.slice_from.
  destruct (Nat.le_gt_cases (n + m) (String.length s)) as [Hn|Hn].
  - replace (String.length s - n) with (m + (String.length s - (n + m))) by lia.
    apply substring_split.
  - rewrite (@substring_beyond s (n + m)) by lia. rewrite append_nil_r.
    symmetry. apply substring_clamp. lia.
Qed.

Lemma slice_from_append (a s : string) :
  Setuptools.slice_from (a ++ s) (String.length a) = s.
Proof.
  unfold Setuptools.slice_from. rewrite length_append.
  replace (String.length a) with (String.length a + 0) at 1 by lia.
  rewrite substring_append_r. apply substring_whole. lia.
Qed.

Lemma index_ge (s : string) :
  forall n sub m, String.index n sub s = Some m -> n <= m.
Proof.
  induction s as [|c s IH]; intros n sub m; simpl.
  - destruct n; [lia|discriminate].
  - destruct n as [|n]; [lia|].
    destruct (String.index n sub s) as [k|] eqn:E; [|discriminate].
    intros H. inversion H; subst. apply IH in E. lia.
Qed.

Lemma index_bound (s : string) :
  forall n sub m, String.index n sub s = Some m -> m <= String.length s.
Proof.
  induction s as [|c s IH]; intros n sub m; simpl.
  - destruct n; [|discriminate]. destruct sub; [|discriminate].
    intros H. inversion H. lia.
  - destruct n as [|n].
    + match goal with
      | |- (if ?b then _ else _) = _ -> _ => destruct b
      end; [intros H; inversion H; lia|].
      destruct (String.index 0 sub s) as [k|] eqn:E; [|discriminate].
      intros H. inversion H; subst. apply IH in E. lia.
    + destruct (String.index n sub s) as [k|] eqn:E; [|discriminate].
      intros H. inversion H; subst. apply IH in E. lia.
Qed.

(** An occurrence with none before it, from [n] on, is what [index]
    finds. *)
Lemma index_first (s sub : string) (n m : nat) :
  sub <> "" -> n <= m ->
  substring m (String.length sub) s = sub ->
  (forall p, n <= p -> p < m -> substring p (String.length sub) s <> sub) ->
  String.index n sub s = Some m.
Proof.
  intros Hne Hnm Hocc Hfirst.
  destruct (String.index n sub s) as [k|] eqn:E.
  - f_equal. destruct (Nat.lt_trichotomy k m) as [Hlt|[Heq|Hgt]]; [|assumption|].
    + exfalso. apply (Hfirst k); [now apply (@index_ge s n sub)|assumption|].
      now apply (index_correct1 n).
    + exfalso. now apply (index_correct2 n k sub s E m).
  - exfalso. now apply (index_correct3 n m sub s E).
Qed.

Lemma find_from (s sub : string) (n : nat) :
  Setuptools.find s sub (Z.of_nat n)
  = match String.index n sub s with
    | Some i => Z.of_nat i
    | None => (-1)%Z
    end.
Proof.
  unfold Setuptools.find.
  destruct (Z.ltb_spec (Z.of_nat n) 0) as [H|H]; [lia|].
  now rewrite Nat2Z.id.
Qed.

Lemma concat_cons (x : string) (l : list string) :
  String.concat "" (x :: l) = x ++ String.concat "" l.
Proof.
  destruct l as [|y l]; simpl; [now rewrite append_nil_r|reflexivity].
Qed.

Lemma concat_snoc (l : list string) (s : string) :
  String.concat "" (l ++ [s]) = String.concat "" l ++ s.
Proof.
  induction l as [|x l IH]; [reflexivity|].
  change ((x :: l) ++ [s])%list with (x :: (l ++ [s]))%list.
  rewrite !concat_cons, IH. now rewrite append_assoc.
Qed.

Lemma getvalue_write (s : string) (fp : Setuptools.TextIO) :
  Setuptools.getvalue (Setuptools.write s fp) = Setuptools.getvalue fp ++ s.
Proof. unfold Setuptools.getvalue, Setuptools.write. simpl. apply concat_snoc. Qed.

End StringFacts.

(** ** Sections of a file ([_split_section], [_rewrite_section]) *)

Module SectionFacts.

Import Setuptools StringFacts.
Local Open Scope string_scope.

Lemma find_found (s sub : string) (n : nat) :
  (0 <= find s sub (Z.of_nat n))%Z ->
  exists i, String.index n sub s = Some i /\ find s sub (Z.of_nat n) = Z.of_nat i.
Proof.
  rewrite find_from. destruct (String.index n sub s) as [i|]; [|lia].
  intros _. now exists i.
Qed.

Lemma find_start (s sub : string) :
  find s sub 0
  = match String.index 0 sub s with
    | Some i => Z.of_nat i
    | None => (-1)%Z
    end.
Proof. exact (find_from s sub 0). Qed.

Lemma split_found (data b e : string) (i j : nat) :
  String.index 0 b data = Some i ->
  String.index i e data = Some j ->
  _split_section data b e
  = (substring 0 i data,
     substring (i + String.length b) (j - (i + String.length b)) data,
     slice_from data (j + String.length e + 1)).
Proof.
  intros Hb He. unfold _split_section. cbv zeta.
  rewrite find_start, Hb, find_from, He.
  replace (0 <=? Z.of_nat i)%Z with true by (symmetry; apply Z.leb_le; lia).
  replace (0 <=? Z.of_nat j)%Z with true by (symmetry; apply Z.leb_le; lia).
  simpl andb. cbv iota. rewrite !Nat2Z.id. unfold slice.
  now rewrite Nat.sub_0_r.
Qed.

Lemma split_absent (data b e : string) :
  (find data b 0 < 0)%Z \/ (find data e (find data b 0) < 0)%Z ->
  _split_section data b e = (data, "", "").
Proof.
  intros H. unfold _split_section. cbv zeta.
  destruct (Z.leb_spec 0 (find data b 0)); [|reflexivity].
  destruct (Z.leb_spec 0 (find data e (find data b 0))); [lia|reflexivity].
Qed.

(** In [_BEGIN_SECTION] the character [#] occurs at the start only. *)
Lemma begin_marker_hash (k : nat) :
  k < String.length _BEGIN_SECTION ->
  String.get k _BEGIN_SECTION = Some "#"%char -> k = 0.
Proof.
  intros Hk Hget. destruct k as [|k]; [reflexivity|]. exfalso.
  assert (Hall : forallb
            (fun n => match String.get n _BEGIN_SECTION with
                      | Some c => negb (Ascii.eqb c "#"%char)
                      | None => true
                      end)
            (seq 1 (String.length _BEGIN_SECTION - 1)) = true)
    by (vm_compute; reflexivity).
  rewrite forallb_forall in Hall. specialize (Hall (S k)).
  rewrite Hget in Hall. simpl in Hall.
  assert (Hin : In (S k) (seq 1 (String.length _BEGIN_SECTION - 1))).
  { apply in_seq. simpl in *. lia. }
  specialize (Hall Hin). discriminate.
Qed.

(** The end marker found after a begin marker lies behind it. *)
Lemma markers_apart (data : string) (i j : nat) :
  String.index 0 _BEGIN_SECTION data = Some i ->
  String.index i _END_SECTION data = Some j ->
  i + String.length _BEGIN_SECTION <= j.
Proof.
  intros Hb He.
  pose proof (index_ge _ _ _ He) as Hij.
  pose proof (index_correct1 _ _ _ _ Hb) as Hob.
  pose proof (index_correct1 _ _ _ _ He) as Hoe.
  destruct (Nat.le_gt_cases (i + String.length _BEGIN_SECTION) j) as [H|H];
    [assumption|exfalso].
  assert (Hj : String.get j data = Some "#"%char).
  { pose proof (substring_correct1 data j (String.length _END_SECTION) 0) as Hg.
    rewrite Hoe in Hg. simpl in Hg. rewrite <- Hg; [reflexivity|lia]. }
  assert (Hk : j - i = 0).
  { apply begin_marker_hash; [lia|].
    pose proof (substring_correct1 data i (String.length _BEGIN_SECTION) (j - i)) as Hg.
    rewrite Hob in Hg. rewrite Hg; [|lia].
    replace (j - i + i) with j by lia. exact Hj. }
  assert (j = i) by lia. subst j.
  pose proof (substring_correct1 data i (String.length _END_SECTION) 2) as H1.
  pose proof (substring_correct1 data i (String.length _BEGIN_SECTION) 2) as H2.
  rewrite Hoe in H1. rewrite Hob in H2.
  simpl in H1, H2. specialize (H1 ltac:(lia)). specialize (H2 ltac:(lia)).
  rewrite <- H1 in H2. discriminate.
Qed.

Lemma cut_five (data : string) (i lb j le : nat) :
  i + lb <= j ->
  data = substring 0 i data ++ substring i lb data
         ++ substring (i + lb) (j - (i + lb)) data
         ++ substring j le data ++ substring (j + le) 1 data
         ++ slice_from data (j + le + 1).
Proof.
  intros Hij.
  etransitivity; [apply (cut data i)|]. f_equal.
  etransitivity; [apply (cut_tail data i lb)|]. f_equal.
  etransitivity; [apply (cut_tail data (i + lb) (j - (i + lb)))|]. f_equal.
  replace (i + lb + (j - (i + lb))) with j by lia.
  etransitivity; [apply (cut_tail data j le)|]. f_equal.
  apply cut_tail.
Qed.

(** What was cut out of [data]: the markers, the middle and one more
    character. *)
Lemma split_found_reassembles (data b e : string) (i j : nat) :
  String.index 0 b data = Some i ->
  String.index i e data = Some j ->
  i + String.length b <= j ->
  data = substring 0 i data ++ b
         ++ substring (i + String.length b) (j - (i + String.length b)) data
         ++ e ++ substring (j + String.length e) 1 data
         ++ slice_from data (j + String.length e + 1).
Proof.
  intros Hb He Hij.
  pose proof (@cut_five data i (String.length b) j (String.length e) Hij) as H.
  rewrite (index_correct1 _ _ _ _ Hb), (index_correct1 _ _ _ _ He) in H.
  exact H.
Qed.

Lemma rewrite_value (fp : TextIO) (data b e p m s w : string)
    (body : TextIO -> TextIO) :
  _split_section data b e = (p, m, s) ->
  (forall f, getvalue (body f) = getvalue f ++ w) ->
  getvalue (_rewrite_section fp data b e body)
  = getvalue fp ++ p ++ b ++ nl ++ w ++ e ++ nl ++ s.
Proof.
  intros Hsplit Hbody. unfold _rewrite_section. rewrite Hsplit.
  rewrite !getvalue_write, Hbody, !getvalue_write.
  now rewrite !append_assoc.
Qed.

Lemma found_positions (data b e : string) :
  (0 <= find data b 0)%Z ->
  (0 <= find data e (find data b 0))%Z ->
  exists i j, String.index 0 b data = Some i /\ String.index i e data = Some j.
Proof.
  intros Hb He.
  destruct (@find_found data b 0 Hb) as (i & Hi & Hfi).
  change (Z.of_nat 0) with 0%Z in Hfi. rewrite Hfi in He.
  destruct (@find_found data e i He) as (j & Hj & _).
  now exists i, j.
Qed.

(** When both markers of the manifest section are found, the three parts
    that [_split_section] returns, the two markers and at most one
    character after the end marker make up the data again; that one
    character is the only text that the split drops. *)
Theorem split_section_reassembles (data prefix middle suffix : string) :
  (0 <= find data _BEGIN_SECTION 0)%Z ->
  (0 <= find data _END_SECTION (find data _BEGIN_SECTION 0))%Z ->
  _split_section data _BEGIN_SECTION _END_SECTION = (prefix, middle, suffix) ->
  exists skipped,
    String.length skipped <= 1 /\
    data = prefix ++ _BEGIN_SECTION ++ middle ++ _END_SECTION ++ skipped ++ suffix.
Proof.
  intros Hb He Hsplit.
  destruct (@found_positions data _BEGIN_SECTION _END_SECTION Hb He) as (i & j & Hi & Hj).
  rewrite (@split_found data _BEGIN_SECTION _END_SECTION i j Hi Hj) in Hsplit.
  inversion Hsplit; subst.
  exists (substring (j + String.length _END_SECTION) 1 data). split.
  - rewrite substring_length. lia.
  - apply split_found_reassembles; auto. exact (@markers_apart data i j Hi Hj).
Qed.

(** Rewriting a file that holds the manifest section keeps the text before
    the begin marker and the text that follows the end marker and one more
    character; only what lies between is replaced by what the body
    writes. *)
Theorem rewrite_section_replaces (fp : TextIO) (data w : string)
    (body : TextIO -> TextIO) :
  (0 <= find data _BEGIN_SECTION 0)%Z ->
  (0 <= find data _END_SECTION (find data _BEGIN_SECTION 0))%Z ->
  (forall f, getvalue (body f) = getvalue f ++ w) ->
  exists prefix middle skipped suffix,
    data = prefix ++ _BEGIN_SECTION ++ middle ++ _END_SECTION ++ skipped ++ suffix /\
    String.length skipped <= 1 /\
    getvalue (_rewrite_section fp data _BEGIN_SECTION _END_SECTION body)
    = getvalue fp ++ prefix ++ _BEGIN_SECTION ++ nl ++ w
      ++ _END_SECTION ++ nl ++ suffix.
Proof.
  intros Hb He Hbody.
  destruct (_split_section data _BEGIN_SECTION _END_SECTION)
    as [[prefix middle] suffix] eqn:Hsplit.
  destruct (@split_section_reassembles data prefix middle suffix Hb He Hsplit)
    as (skipped & Hlen & Hdata).
  exists prefix, middle, skipped, suffix. split; [assumption|].
  split; [assumption|].
  now apply (@rewrite_value fp data _BEGIN_SECTION _END_SECTION prefix middle suffix w body).
Qed.

(** Rewriting a file in which the begin marker, or the end marker after
    it, is not found keeps the whole file and appends the section. *)
Theorem rewrite_section_appends (fp : TextIO) (data b e w : string)
    (body : TextIO -> TextIO) :
  (find data b 0 < 0)%Z \/ (find data e (find data b 0) < 0)%Z ->
  (forall f, getvalue (body f) = getvalue f ++ w) ->
  getvalue (_rewrite_section fp data b e body)
  = getvalue fp ++ data ++ b ++ nl ++ w ++ e ++ nl.
Proof.
  intros Habsent Hbody.
  rewrite (@rewrite_value fp data b e data "" "" w body
             (@split_absent data b e Habsent) Hbody).
  now rewrite append_nil_r.
Qed.

Lemma substring_prefix (a c : string) (n : nat) :
  n = String.length a -> substring 0 n (a ++ c) = a.
Proof.
  intros ->. rewrite substring_append_l by lia. apply substring_whole. lia.
Qed.

Lemma substring_at (a b c : string) (n m : nat) :
  n = String.length a -> m = String.length b ->
  substring n m (a ++ b ++ c) = b.
Proof.
  intros -> ->. replace (String.length a) with (String.length a + 0) by lia.
  rewrite substring_append_r. now apply substring_prefix.
Qed.

Lemma slice_from_at (a s : string) (n : nat) :
  n = String.length a -> slice_from (a ++ s) n = s.
Proof. intros ->. apply slice_from_append. Qed.

(** Splitting a rendered file gives back what it was rendered from. *)
Lemma split_rendered (p b e w s : string) :
  b <> "" -> e <> "" ->
  (forall k, k < String.length p ->
     substring k (String.length b) (p ++ b ++ nl ++ w ++ e ++ nl ++ s) <> b) ->
  String.index 0 e (b ++ nl ++ w ++ e)
  = Some (String.length b + 1 + String.length w) ->
  _split_section (p ++ b ++ nl ++ w ++ e ++ nl ++ s) b e = (p, nl ++ w, s).
Proof.
  intros Hb He Hp Hw.
  set (out := p ++ b ++ nl ++ w ++ e ++ nl ++ s) in *.
  assert (Hi : String.index 0 b out = Some (String.length p)).
  { apply index_first; [assumption|lia| |].
    - unfold out. now apply substring_at.
    - intros k _ Hk. now apply Hp. }
  assert (Hout1 : out = (p ++ b ++ nl ++ w) ++ e ++ nl ++ s)
    by (unfold out; now rewrite !append_assoc).
  assert (Hlen1 : String.length (p ++ b ++ nl ++ w)
                  = String.length p + (String.length b + 1 + String.length w))
    by (rewrite !length_append; simpl; lia).
  assert (Hj : String.index (String.length p) e out
               = Some (String.length p + (String.length b + 1 + String.length w))).
  { apply index_first; [assumption|lia| |].
    - rewrite Hout1. now apply substring_at.
    - intros q Hq1 Hq2.
      replace q with (String.length p + (q - String.length p)) by lia.
      unfold out. rewrite substring_append_r.
      replace (b ++ nl ++ w ++ e ++ nl ++ s) with ((b ++ nl ++ w ++ e) ++ nl ++ s)
        by (now rewrite !append_assoc).
      rewrite substring_append_l
        by (rewrite !length_append; simpl; lia).
      apply (index_correct2 0 _ _ _ Hw); lia. }
  rewrite (@split_found out b e _ _ Hi Hj). f_equal; [f_equal|].
  - unfold out. now apply substring_prefix.
  - assert (Hout2 : out = (p ++ b) ++ (nl ++ w) ++ e ++ nl ++ s)
      by (unfold out; now rewrite !append_assoc).
    rewrite Hout2. apply substring_at.
    + now rewrite length_append.
    + rewrite length_append. simpl. lia.
  - assert (Hout3 : out = (p ++ b ++ nl ++ w ++ e ++ nl) ++ s)
      by (unfold out; now rewrite !append_assoc).
    rewrite Hout3. apply slice_from_at.
    rewrite !length_append. simpl. lia.
Qed.

Lemma rewrite_value_new (data b e p m s w : string) (body : TextIO -> TextIO) :
  _split_section data b e = (p, m, s) ->
  (forall f, getvalue (body f) = getvalue f ++ w) ->
  getvalue (_rewrite_section new_file data b e body)
  = p ++ b ++ nl ++ w ++ e ++ nl ++ s.
Proof.
  intros Hsplit Hbody.
  now rewrite (@rewrite_value new_file data b e p m s w body Hsplit Hbody).
Qed.

(** Before the begin marker that was found there is no other one, also
    once the text behind it has changed. *)
Lemma no_earlier_marker_found (data b rest : string) (i k : nat) :
  String.index 0 b data = Some i ->
  k < i ->
  substring k (String.length b) (substring 0 i data ++ b ++ rest) <> b.
Proof.
  intros Hi Hk.
  pose proof (index_bound _ _ _ Hi) as Hbound.
  set (p := substring 0 i data).
  assert (Hlen : String.length p = i)
    by (unfold p; rewrite substring_length; lia).
  assert (Hdata : data = (p ++ b) ++ slice_from data (i + String.length b)).
  { rewrite append_assoc. etransitivity; [apply (cut data i)|]. f_equal.
    rewrite <- (index_correct1 _ _ _ _ Hi) at 1. apply cut_tail. }
  replace (p ++ b ++ rest) with ((p ++ b) ++ rest) by apply append_assoc.
  rewrite substring_append_l by (rewrite length_append; lia).
  pose proof (index_correct2 _ _ _ _ Hi k (Nat.le_0_l k) Hk) as Hno.
  rewrite Hdata in Hno.
  rewrite substring_append_l in Hno by (rewrite length_append; lia).
  exact Hno.
Qed.

Lemma no_earlier_marker_absent (data rest : string) (k : nat) :
  String.index 0 _BEGIN_SECTION data = None ->
  k < String.length data ->
  substring k (String.length _BEGIN_SECTION) (data ++ _BEGIN_SECTION ++ rest)
  <> _BEGIN_SECTION.
Proof.
  intros Hnone Hk Hocc.
  destruct (Nat.le_gt_cases (k + String.length _BEGIN_SECTION) (String.length data))
    as [Hin|Hout].
  - rewrite substring_append_l in Hocc by assumption.
    revert Hocc. apply (index_correct3 0); [assumption|discriminate|lia].
  - assert (Hd : String.length data - k = 0).
    { apply begin_marker_hash; [lia|].
      rewrite <- Hocc at 1. rewrite substring_correct1 by lia.
      replace (String.length data - k + k) with (0 + String.length data) by lia.
      rewrite <- append_correct2. reflexivity. }
    lia.
Qed.

Lemma find_at (s sub : string) (n : nat) :
  find s sub 0 = Z.of_nat n -> String.index 0 sub s = Some n.
Proof.
  rewrite find_start. destruct (String.index 0 sub s) as [i|]; [|lia].
  intros H. f_equal. lia.
Qed.

(** Rendering the manifest section a second time replaces exactly what
    the first rendering wrote: for a file that holds the whole section or
    no begin marker, and a first body that does not write the end marker,
    rendering the rendered file gives what rendering the original file
    gives.  With the same body twice, rendering is idempotent. *)
Theorem rewrite_section_again (data w w' : string)
    (body body' : TextIO -> TextIO) :
  (find data _BEGIN_SECTION 0 < 0)%Z \/
  (0 <= find data _END_SECTION (find data _BEGIN_SECTION 0))%Z ->
  find (_BEGIN_SECTION ++ nl ++ w ++ _END_SECTION) _END_SECTION 0
  = Z.of_nat (String.length _BEGIN_SECTION + 1 + String.length w) ->
  (forall f, getvalue (body f) = getvalue f ++ w) ->
  (forall f, getvalue (body' f) = getvalue f ++ w') ->
  getvalue
    (_rewrite_section new_file
       (getvalue (_rewrite_section new_file data _BEGIN_SECTION _END_SECTION body))
       _BEGIN_SECTION _END_SECTION body')
  = getvalue (_rewrite_section new_file data _BEGIN_SECTION _END_SECTION body').
Proof.
  intros Hdata Hw Hbody Hbody'. apply find_at in Hw.
  destruct (_split_section data _BEGIN_SECTION _END_SECTION)
    as [[p m] s] eqn:Hsplit.
  rewrite (@rewrite_value_new data _ _ p m s w body Hsplit Hbody).
  rewrite (@rewrite_value_new data _ _ p m s w' body' Hsplit Hbody').
  apply (@rewrite_value_new _ _ _ p (nl ++ w) s w' body'); [|assumption].
  apply split_rendered; try discriminate; [|assumption].
  intros k Hk.
  destruct (Z.ltb_spec (find data _BEGIN_SECTION 0) 0) as [Habsent|Hfound].
  - rewrite (@split_absent data _BEGIN_SECTION _END_SECTION (or_introl Habsent))
      in Hsplit.
    assert (Hnone : String.index 0 _BEGIN_SECTION data = None).
    { rewrite find_start in Habsent.
      destruct (String.index 0 _BEGIN_SECTION data); [lia|reflexivity]. }
    inversion Hsplit; subst. now apply no_earlier_marker_absent.
  - destruct Hdata as [Hdata|Hdata]; [lia|].
    destruct (@found_positions data _BEGIN_SECTION _END_SECTION Hfound Hdata)
      as (i & j & Hi & Hj).
    rewrite (@split_found data _BEGIN_SECTION _END_SECTION i j Hi Hj) in Hsplit.
    inversion Hsplit; subst.
    apply no_earlier_marker_found; [assumption|].
    rewrite substring_length in Hk. lia.
Qed.

End SectionFacts.

Lemma split_section_reassembles_witness :
  exists skipped,
    String.length skipped <= 1 /\
    Setuptools.sample_manifest
    = (("include README.md" ++ Setuptools.nl) ++ Setuptools._BEGIN_SECTION
       ++ (Setuptools.nl ++ "include old.txt" ++ Setuptools.nl)
       ++ Setuptools._END_SECTION ++ skipped
       ++ ("include extra.txt" ++ Setuptools.nl))%string.
Proof.
  apply (@SectionFacts.split_section_reassembles Setuptools.sample_manifest).
  - apply Z.leb_le. vm_compute. reflexivity.
  - apply Z.leb_le. vm_compute. reflexivity.
  - vm_compute. reflexivity.
Defined.

Lemma rewrite_section_replaces_witness :
  exists prefix middle skipped suffix,
    Setuptools.sample_manifest
    = (prefix ++ Setuptools._BEGIN_SECTION ++ middle ++ Setuptools._END_SECTION
       ++ skipped ++ suffix)%string /\
    String.length skipped <= 1 /\
    Setuptools.getvalue
      (Setuptools._rewrite_section Setuptools.new_file Setuptools.sample_manifest
         Setuptools._BEGIN_SECTION Setuptools._END_SECTION Setuptools.sample_body)
    = (Setuptools.getvalue Setuptools.new_file ++ prefix
       ++ Setuptools._BEGIN_SECTION ++ Setuptools.nl
       ++ ("include setup.py" ++ Setuptools.nl)
       ++ Setuptools._END_SECTION ++ Setuptools.nl ++ suffix)%string.
Proof.
  apply (@SectionFacts.rewrite_section_replaces Setuptools.new_file
           Setuptools.sample_manifest ("include setup.py" ++ Setuptools.nl)%string
           Setuptools.sample_body).
  - apply Z.leb_le. vm_compute. reflexivity.
  - apply Z.leb_le. vm_compute. reflexivity.
  - intros f. apply StringFacts.getvalue_write.
Defined.

Lemma rewrite_section_appends_witness :
  Setuptools.getvalue
    (Setuptools._rewrite_section Setuptools.new_file "include README.md"
       Setuptools._BEGIN_SECTION Setuptools._END_SECTION Setuptools.sample_body)
  = (Setuptools.getvalue Setuptools.new_file ++ "include README.md"
     ++ Setuptools._BEGIN_SECTION ++ Setuptools.nl
     ++ ("include setup.py" ++ Setuptools.nl)
     ++ Setuptools._END_SECTION ++ Setuptools.nl)%string.
Proof.
  apply (@SectionFacts.rewrite_section_appends Setuptools.new_file
           "include README.md" Setuptools._BEGIN_SECTION Setuptools._END_SECTION
           ("include setup.py" ++ Setuptools.nl)%string Setuptools.sample_body).
  - left. apply Z.ltb_lt. vm_compute. reflexivity.
  - intros f. apply StringFacts.getvalue_write.
Defined.

Lemma rewrite_section_again_witness :
  Setuptools.getvalue
    (Setuptools._rewrite_section Setuptools.new_file
       (Setuptools.getvalue
          (Setuptools._rewrite_section Setuptools.new_file Setuptools.sample_manifest
             Setuptools._BEGIN_SECTION Setuptools._END_SECTION Setuptools.sample_body))
       Setuptools._BEGIN_SECTION Setuptools._END_SECTION Setuptools.sample_body)
  = Setuptools.getvalue
      (Setuptools._rewrite_section Setuptools.new_file Setuptools.sample_manifest
         Setuptools._BEGIN_SECTION Setuptools._END_SECTION Setuptools.sample_body).
Proof.
  apply (@SectionFacts.rewrite_section_again Setuptools.sample_manifest
           ("include setup.py" ++ Setuptools.nl)%string
           ("include setup.py" ++ Setuptools.nl)%string
           Setuptools.sample_body Setuptools.sample_body).
  - right. apply Z.leb_le. vm_compute. reflexivity.
  - vm_compute. reflexivity.
  - intros f. apply StringFacts.getvalue_write.
  - intros f. apply StringFacts.getvalue_write.
Defined.

(** ** The [_tempcopy] helper and the requirement lists *)

Module RendererFacts.

Import Setuptools StringFacts.
Local Open Scope string_scope.

Section Steps.

Variable os_path : OsPath.
Variable repr : string -> string.

Lemma tempcopy_head : exists t, tempcopy_source = String "d"%char t.
Proof. vm_compute. eexists. reflexivity. Qed.

Lemma defined_write (s : string) (fp : TextIO) :
  s <> tempcopy_source -> defined (write s fp) = defined fp.
Proof.
  intros Hs. unfold defined, write. simpl. rewrite count_occ_app. simpl.
  destruct (string_dec s tempcopy_source); [contradiction|lia].
Qed.

Lemma defined_write_source (fp : TextIO) :
  defined (write tempcopy_source fp) = S (defined fp).
Proof.
  unfold defined, write. simpl. rewrite count_occ_app. simpl.
  destruct (string_dec tempcopy_source tempcopy_source); [lia|contradiction].
Qed.

Lemma other_head (c : ascii) (t : string) :
  c <> "d"%char -> String c t <> tempcopy_source.
Proof.
  intros Hc H. destruct tempcopy_head as (t' & Ht). rewrite Ht in H.
  inversion H. contradiction.
Qed.

Lemma tracked_write (s : string) (fp : TextIO) :
  s <> tempcopy_source -> tracked fp -> tracked (write s fp).
Proof.
  intros Hs Ht. unfold tracked in *. now rewrite defined_write.
Qed.

Lemma temp_file_copy_function_tracked (fp : TextIO) :
  tracked fp ->
  tracked (_render_temp_file_copy_function fp) /\
  _SetuptoolsRenderer_tempcopy_rendered (_render_temp_file_copy_function fp) = true.
Proof.
  intros Ht. unfold _render_temp_file_copy_function.
  destruct (_SetuptoolsRenderer_tempcopy_rendered fp) eqn:Hflag; [auto|].
  split; [|reflexivity]. unfold tracked in *. rewrite Hflag in Ht.
  rewrite defined_write by (apply other_head; discriminate).
  rewrite defined_write_source.
  rewrite defined_write by (apply other_head; discriminate).
  simpl. unfold defined in *. simpl. now rewrite Ht.
Qed.

Lemma readme_code_tracked (fp : TextIO) (package : PackageModel) :
  tracked fp ->
  tracked (fst (_render_readme_code os_path repr fp package)) /\
  (_SetuptoolsRenderer_tempcopy_rendered fp = true ->
   _SetuptoolsRenderer_tempcopy_rendered
     (fst (_render_readme_code os_path repr fp package)) = true) /\
  (forall status, _get_readme_status os_path package = Some status ->
     outside status = true ->
     _SetuptoolsRenderer_tempcopy_rendered
       (fst (_render_readme_code os_path repr fp package)) = true).
Proof.
  intros Ht. unfold _render_readme_code.
  destruct (_get_readme_status os_path package) as [status|]; simpl.
  - set (fp1 := write (nl ++ "readme_file = " ++ repr (runtime_path status) ++ nl) fp).
    assert (Ht1 : tracked fp1)
      by (apply tracked_write; [apply other_head; discriminate|assumption]).
    destruct (outside status) eqn:Hout.
    + destruct (temp_file_copy_function_tracked Ht1) as [Ht2 Hflag].
      split; [|split].
      * apply tracked_write; [apply other_head; discriminate|].
        apply tracked_write; [apply other_head; discriminate|assumption].
      * intros _. exact Hflag.
      * intros s _ _. exact Hflag.
    + split; [|split].
      * apply tracked_write; [apply other_head; discriminate|assumption].
      * intros H. exact H.
      * intros s Hs Hs'. inversion Hs; subst. congruence.
  - split; [assumption|]. split; [auto|]. intros s Hs. discriminate.
Qed.

Lemma run_step_tracked (fp : TextIO) (step : render_step) :
  tracked fp ->
  tracked (run_step os_path repr fp step) /\
  (_SetuptoolsRenderer_tempcopy_rendered fp = true ->
   _SetuptoolsRenderer_tempcopy_rendered (run_step os_path repr fp step) = true).
Proof.
  intros Ht. destruct step as [|package]; simpl.
  - destruct (temp_file_copy_function_tracked Ht) as [H1 H2]. auto.
  - destruct (readme_code_tracked package Ht) as (H1 & H2 & _). auto.
Qed.

Lemma run_steps_tracked (steps : list render_step) :
  forall fp, tracked fp ->
    tracked (fold_left (run_step os_path repr) steps fp) /\
    (_SetuptoolsRenderer_tempcopy_rendered fp = true ->
     _SetuptoolsRenderer_tempcopy_rendered
       (fold_left (run_step os_path repr) steps fp) = true).
Proof.
  induction steps as [|step steps IH]; intros fp Ht; simpl; [auto|].
  destruct (run_step_tracked step Ht) as [H1 H2].
  destruct (IH _ H1) as [H3 H4]. auto.
Qed.

End Steps.

(** However [_render_temp_file_copy_function] and [_render_readme_code]
    are called on a new file, the text of [_tempcopy] is written at most
    once, and it is written when the function is asked for or when a
    readme outside the package directory makes the setup file call it. *)
Theorem tempcopy_defined_once (os_path : OsPath) (repr : string -> string)
    (steps : list render_step) :
  let fp := fold_left (run_step os_path repr) steps new_file in
  defined fp <= 1 /\
  (defined fp = 1 <-> _SetuptoolsRenderer_tempcopy_rendered fp = true) /\
  (In TempFileCopyFunction steps \/
   (exists package status,
      In (ReadmeCode package) steps /\
      _get_readme_status os_path package = Some status /\
      outside status = true) ->
   defined fp = 1).
Proof.
  intros fp.
  assert (Hnew : tracked new_file) by reflexivity.
  destruct (run_steps_tracked os_path repr steps Hnew) as [Ht _]. fold fp in Ht.
  assert (Hiff : defined fp = 1 <-> _SetuptoolsRenderer_tempcopy_rendered fp = true).
  { unfold tracked in Ht. rewrite Ht.
    destruct (_SetuptoolsRenderer_tempcopy_rendered fp); split; congruence. }
  split; [|split; [exact Hiff|]].
  - unfold tracked in Ht. rewrite Ht.
    destruct (_SetuptoolsRenderer_tempcopy_rendered fp); lia.
  - intros Htrigger. apply Hiff.
    assert (Hcut : exists l1 step l2,
              steps = (l1 ++ step :: l2)%list /\
              forall f, tracked f ->
                _SetuptoolsRenderer_tempcopy_rendered
                  (run_step os_path repr f step) = true).
    { destruct Htrigger as [Hin|(package & status & Hin & Hs & Hout)];
        destruct (in_split _ _ Hin) as (l1 & l2 & ->).
      - exists l1, TempFileCopyFunction, l2. split; [reflexivity|].
        intros f Hf. now apply temp_file_copy_function_tracked.
      - exists l1, (ReadmeCode package), l2. split; [reflexivity|].
        intros f Hf.
        destruct (readme_code_tracked os_path repr package Hf) as (_ & _ & H).
        now apply (H status). }
    destruct Hcut as (l1 & step & l2 & Hsteps & Hset).
    unfold fp. rewrite Hsteps, fold_left_app. simpl.
    destruct (run_steps_tracked os_path repr l1 Hnew) as [Ht1 _].
    destruct (run_step_tracked os_path repr step Ht1) as [Ht2 _].
    destruct (run_steps_tracked os_path repr l2 Ht2) as [_ Hkeep].
    apply Hkeep. now apply Hset.
Qed.

(** A requirement on ["python"] is never rendered: the list is the one
    rendered without such requirements, and it is ["[]"] exactly when
    there is no other requirement. *)
Theorem format_reqs_skips_python (repr : string -> string)
    (reqs : list Requirement) (level : nat) :
  _format_reqs repr reqs level = _format_reqs repr (filter not_python reqs) level /\
  (_format_reqs repr reqs level = "[]" <->
   forall r, In r reqs -> package r = "python").
Proof.
  assert (Hidem : filter not_python (filter not_python reqs) = filter not_python reqs).
  { induction reqs as [|r reqs IH]; simpl; [reflexivity|].
    destruct (not_python r) eqn:E; simpl; [rewrite E, IH|]; auto. }
  split.
  - unfold _format_reqs. now rewrite !Hidem.
  - unfold _format_reqs. destruct (filter not_python reqs) as [|r l] eqn:Hf.
    + split; [|reflexivity]. intros _ r Hr.
      destruct (String.eqb_spec (package r) "python") as [H|H]; [assumption|].
      assert (Hin : In r (filter not_python reqs)).
      { apply filter_In. split; [assumption|]. unfold not_python.
        now apply negb_true_iff, String.eqb_neq. }
      rewrite Hf in Hin. destruct Hin.
    + split.
      * intros H. simpl in H. unfold nl in H. simpl in H. discriminate.
      * intros H. exfalso.
        assert (Hin : In r (filter not_python reqs)) by (rewrite Hf; now left).
        apply filter_In in Hin. destruct Hin as [Hin Hnp].
        unfold not_python in Hnp. rewrite (H r Hin) in Hnp. discriminate.
Qed.

End RendererFacts.

(** ** Entry points *)

Module EntrypointFacts.

Import Setuptools.

Section Groups.

Variable repr : string -> string.

Lemma append_group_lines (lines : list string) (group : string * list string) :
  append_group repr lines group = lines ++ group_lines repr "," group.
Proof.
  destruct group as [key value]. unfold append_group, group_lines. simpl.
  now rewrite <- !app_assoc.
Qed.

Lemma fold_groups (groups : list (string * list string)) :
  forall lines,
    fold_left (append_group repr) groups lines
    = lines ++ flat_map (group_lines repr ",") groups.
Proof.
  induction groups as [|g groups IH]; intros lines; simpl.
  - now rewrite app_nil_r.
  - now rewrite IH, append_group_lines, <- app_assoc.
Qed.

Lemma cut_last_line_snoc (lines : list string) (last : string) :
  cut_last_line (lines ++ [last])
  = lines ++ [substring 0 (String.length last - 1) last].
Proof.
  unfold cut_last_line. rewrite rev_app_distr. simpl. now rewrite rev_involutive.
Qed.

(** The text rendered for a dict of entry points that is not empty: an
    opening brace, the lines of every group, and the closing brace, where
    each group closes with ["],"] except the last, which closes with
    ["]"].  The empty dict is rendered as ["{}"]. *)
Theorem render_entrypoints_groups (front : list (string * list string))
    (last : string * list string) :
  _render_entrypoints repr (front ++ [last])
  = String.concat nl
      ("{" :: flat_map (group_lines repr ",") front
           ++ group_lines repr "" last ++ ["  }"]) /\
  _render_entrypoints repr [] = "{}".
Proof.
  split; [|reflexivity]. unfold _render_entrypoints.
  destruct (front ++ [last]) as [|g groups] eqn:Hgroups.
  - destruct front; discriminate.
  - rewrite <- Hgroups. clear Hgroups g groups.
    rewrite fold_groups, flat_map_app.
    set (body := ("    " ++ repr (fst last) ++ ": [")%string
                 :: map (render_item repr) (snd last)).
    assert (Hcomma : flat_map (group_lines repr ",") [last] = body ++ ["    ],"])
      by (simpl; now rewrite app_nil_r).
    assert (Hplain : group_lines repr "" last = body ++ ["    ]"])
      by reflexivity.
    rewrite Hcomma, Hplain.
    rewrite (app_assoc ["{"]), (app_assoc _ body), cut_last_line_snoc.
    f_equal. rewrite <- !app_assoc. reflexivity.
Qed.

End Groups.

End EntrypointFacts.

(** ** More on the lazy fields *)

(** After a [load()] that returns, [vcs()] returns what [get_vcs] of the
    bound handler answers and does not raise.  [host()] returns what
    [get_repository_host] of the handler answers when the handler defines
    that method, and raises [AttributeError] when the handler has the
    declared methods only. *)
Theorem load_then_accessors (caches_failure : bool) (plugins : Plugins)
    (c : Configuration) :
  fst (perform caches_failure plugins Load (Repository_init c)) = Ok Done ->
  exists handler,
    resolution plugins c = Ok handler /\
    fst (perform_all caches_failure plugins [Load; GetVcs; GetHost]
           (Repository_init c))
    = [Ok Done; Ok (SawVcs (get_vcs handler c));
       match get_repository_host handler with
       | Some method => Ok (SawHost (method c))
       | None => Raise AttributeError
       end].
Proof.
  intros Hload. rewrite perform_fresh in Hload. unfold expected in Hload.
  destruct (resolution plugins c) as [handler|e] eqn:Hres; [|discriminate].
  exists handler. split; [reflexivity|].
  destruct (@perform_all_spec caches_failure plugins c [Load; GetVcs; GetHost]
              (Repository_init c)) as (r' & Hall & _).
  - apply fresh_consistent.
  - left. simpl. auto.
  - rewrite Hall. simpl. unfold expected_vcs, expected_host.
    rewrite Hres. now destruct (get_repository_host handler).
Qed.

Lemma load_then_accessors_witness :
  exists handler,
    resolution Sample.bare Sample.plain = Ok handler /\
    fst (perform_all false Sample.bare [Load; GetVcs; GetHost]
           (Repository_init Sample.plain))
    = [Ok Done; Ok (SawVcs (get_vcs handler Sample.plain));
       match get_repository_host handler with
       | Some method => Ok (SawHost (method Sample.plain))
       | None => Raise AttributeError
       end].
Proof.
  apply (@load_then_accessors false Sample.bare Sample.plain).
  reflexivity.
Defined.

(** On a new instance [is_monorepo] raises what [projects()] raises. *)
Theorem is_monorepo_raises (caches_failure : bool) (plugins : Plugins)
    (c : Configuration) (e : exn) :
  fst (call_projects caches_failure plugins (Repository_init c)) = Raise e ->
  fst (is_monorepo caches_failure plugins (Repository_init c)) = Raise e.
Proof.
  intros Hcall. unfold is_monorepo, bind.
  destruct (call_projects caches_failure plugins (Repository_init c)) as [x r'].
  simpl in Hcall. now subst.
Qed.

Lemma is_monorepo_raises_witness :
  fst (is_monorepo false Sample.unmatched (Repository_init Sample.plain))
  = Raise (NotASlamRepository "/repo").
Proof.
  apply (@is_monorepo_raises false Sample.unmatched Sample.plain).
  reflexivity.
Defined.
